(** * Image-signature terms and similarity queries (xapian-extras/imgseek)

    A shallow embedding of [image_terms.cc]: the term mapper
    ([colourprefix], [make_coeff_term]), the weight map built at
    construction ([make_weightmap]), the indexer ([AddTerms]) and the
    query builders ([make_coeff_query], [make_averages_query],
    [querySimilar]), followed by the properties the design document
    states about them.

    Conventions.
    - [int] values are [Z]; the only arithmetic the file does on them is
      the loop counter of [make_weightmap], which stays inside
      [[-num_pixels_squared, num_pixels_squared]].
    - A [double] that the file only passes on (a weight, an average) is
      carried as the rational it stands for, in [Q]; the constructor's
      arithmetic on doubles is binary64, done with the kernel's floats.
    - [std::string] is [string]; [std::map<std::string,double>] is
      [gmap string Q]; [std::set<std::string>] is [gset string], iterated
      in increasing string order.
    - Methods that reach a document or [this] run in the monad [M], whose
      state is the pair of both; throwing and undefined behaviour
      (dereferencing an end iterator, indexing a vector out of range) are
      outcomes of their own. *)

From Stdlib Require Import ZArith QArith Qround Qabs String Ascii.
From Stdlib Require Import DecimalString DecimalZ DecimalPos Lia Lqa.
From Stdlib Require Import Floats.PrimFloat.
From Stdlib Require Floats.SpecFloat Floats.FloatOps.
From stdpp Require Import gmap strings list sorting.

Open Scope Z_scope.

(** ** Scalars and errors *)

Abbreviation double := Q.

(** [Xapian::valueno]: an unsigned slot number. *)
Abbreviation valueno := N.

(** The exception classes of [xapian/error.h] that this file names, and
    one constructor for every other exception type. *)
Inductive Error : Type :=
| InvalidArgumentError (msg : string)
| NetworkError (msg : string)
| OtherError (kind msg : string).

Definition is_invalid_argument (e : Error) : bool :=
  match e with InvalidArgumentError _ => true | _ => false end.

(** [const float weights[6][3]], rows indexed by bin, columns by channel
    (Y, I, Q). *)
Definition weights : list (list double) :=
  [ [ 5.00; 19.21; 34.37 ];
    [ 0.83;  1.26;  0.36 ];
    [ 1.01;  0.44;  0.45 ];
    [ 0.52;  0.53;  0.14 ];
    [ 0.47;  0.28;  0.18 ];
    [ 0.30;  0.14;  0.27 ] ]%Q.

(** [weights[i][c]]; [None] is an access outside the array. *)
Definition weights_at (i c : Z) : option double :=
  if (i <? 0) || (c <? 0) then None
  else row ← weights !! Z.to_nat i; row !! Z.to_nat c.


(** ** Binary64 *)


(** ** Strings *)

(** [to_string<int>]: the stream's decimal rendering of an [int]. *)
Definition to_string (t : Z) : string :=
  NilZero.string_of_int (Z.to_int t).

(** [std::string::find(start)] from position 0; [None] is [npos]. *)
Definition find (s start : string) : option nat := String.index 0 start s.

Definition startswith (s start : string) : bool :=
  match find s start with
  | Some O => true
  | _ => false
  end.

(** [operator<] of [std::string]: byte-wise lexicographic order. *)
Definition string_le (s t : string) : Prop := String.leb s t = true.

Global Instance string_le_dec s t : Decision (string_le s t).
Proof. unfold string_le. apply _. Defined.

(** ** The collaborators of this file

    Everything below is declared in headers or defined in files that
    are not part of this translation unit. *)

Class Collaborators : Type := {
  (** [haar.h]: half-width of the coefficient space. *)
  num_pixels_squared : Z;
  (** [double find_weight(const int idx, const int colour)], declared at
      the top of the file and defined elsewhere. *)
  find_weight : Z → Z → double;
  (** [serialise-double.h]: [unserialise_double(&ptr, end)] returns the
      decoded value or throws. *)
  unserialise_double : string → Error + double;
  (** [serialise-double.h]: the encoder used when a value is stored. *)
  serialise_double : double → string
}.

(** ** Queries *)

(** [Xapian::RangeAccelerator], as its constructor is called here:
    term prefix, value slot, domain and bucket width. *)
Record RangeAccelerator : Type := {
  ra_prefix : string;
  ra_valnum : valueno;
  ra_lo : PrimFloat.float;
  ra_hi : PrimFloat.float;
  ra_step : PrimFloat.float
}.



(** The query algebra consumed from the engine: the default-constructed
    query, a single term, [OP_SCALE_WEIGHT], [OP_OR], and the query an
    accelerator returns from [query_for_val_distance]. *)
Inductive Query : Type :=
| Query_empty
| Query_term (tname : string)
| Query_scale_weight (subq : Query) (w : double)
| Query_or (l r : Query)
| Query_val_distance (acc : RangeAccelerator) (val : double).

(** ** Documents *)

(** Modelled from the spec: [Xapian::Document] is not part of the
    sources. The design document describes it as a term list that is a
    set from the engine's perspective, plus a set of stored fields; a
    field that was never set reads as the empty byte string. *)
Record Document : Type := {
  doc_terms : gset string;
  doc_values : gmap valueno string
}.

Definition Document_new : Document :=
  {| doc_terms := ∅; doc_values := ∅ |}.

Definition add_term (tname : string) (d : Document) : Document :=
  {| doc_terms := {[ tname ]} ∪ doc_terms d; doc_values := doc_values d |}.

Definition add_value (slot : valueno) (v : string) (d : Document) : Document :=
  {| doc_terms := doc_terms d; doc_values := <[slot := v]> (doc_values d) |}.

Definition get_value (slot : valueno) (d : Document) : string :=
  default EmptyString (doc_values d !! slot).

(** The terms between [termlist_begin()] and [termlist_end()], in
    increasing order. *)
Definition termlist (d : Document) : list string :=
  merge_sort string_le (elements (doc_terms d)).

(** [TermIterator::skip_to(tname)]: advance to the first term that is
    not smaller than [tname]. *)
Fixpoint skip_to (tname : string) (it : list string) : list string :=
  match it with
  | [] => []
  | t :: it' => if String.ltb t tname then skip_to tname it' else it
  end.

(** ** Signatures and the [ImgTerms] object *)

(** [ImgSig]: three coefficient containers and [double avgl[3]]. A
    container is given by the sequence its iterator yields. *)
Record ImgSig : Type := {
  sig1 : list Z;
  sig2 : list Z;
  sig3 : list Z;
  avgl0 : double;
  avgl1 : double;
  avgl2 : double
}.

(** All coefficient positions of a signature lie in [[-n, n)]. *)
Definition sig_in_range (n : Z) (sig : ImgSig) : Prop :=
  ∀ x, x ∈ sig1 sig ++ sig2 sig ++ sig3 sig → - n ≤ x < n.

(** [sig.avgl[c]]; [None] is an access outside the array. *)
Definition avgl (sig : ImgSig) (c : Z) : option double :=
  match c with
  | 0 => Some (avgl0 sig)
  | 1 => Some (avgl1 sig)
  | 2 => Some (avgl2 sig)
  | _ => None
  end.

Record ImgTerms : Type := {
  prefix : string;
  weightmap : gmap string double;
  colour_vals : list valueno;
  colour_average_accels : list RangeAccelerator
}.

(** The values of [c] visited by [for (int c = 0; c < 3; ++c)]. *)
Definition channels : list Z := [0; 1; 2].

Definition colourprefix (this : ImgTerms) (c : Z) : string :=
  prefix this +:+ to_string c.

Definition make_coeff_term (this : ImgTerms) (x c : Z) : string :=
  colourprefix this c +:+ to_string x.

(** ** The monad of methods *)

Record World : Type := {
  w_doc : Document;
  w_this : ImgTerms
}.

Inductive outcome (A : Type) : Type :=
| Ret (a : A) (w : World)
| Throw (e : Error) (w : World)
| Undefined.
Arguments Ret {A} a w.
Arguments Throw {A} e w.
Arguments Undefined {A}.

Definition M (A : Type) : Type := World → outcome A.

Definition ret {A} (a : A) : M A := λ w, Ret a w.

Definition bind {A B} (m : M A) (k : A → M B) : M B :=
  λ w, match m w with
       | Ret a w' => k a w'
       | Throw e w' => Throw e w'
       | Undefined => Undefined
       end.

Notation "'call' x <-- m 'in' k" := (bind m (λ x, k))
  (at level 10, x name, m at level 100, k at level 200).

Definition throw {A} (e : Error) : M A := λ w, Throw e w.
Definition undefined {A} : M A := λ _, Undefined.
Definition get_doc : M Document := λ w, Ret (w_doc w) w.
Definition get_this : M ImgTerms := λ w, Ret (w_this w) w.
Definition modify_doc (f : Document → Document) : M unit :=
  λ w, Ret tt {| w_doc := f (w_doc w); w_this := w_this w |}.

(** A checked-by-nobody access: the value if there is one, undefined
    behaviour otherwise. *)
Definition deref {A} (o : option A) : M A :=
  match o with Some a => ret a | None => undefined end.

(** A computation that hands back the world it was given, whenever its
    behaviour is defined. *)
Definition read_only {A} (m : M A) : Prop :=
  ∀ w, match m w with
       | Ret _ w' | Throw _ w' => w' = w
       | Undefined => True
       end.

(** A loop over [l] with the loop-carried variable [acc]. *)
Fixpoint for_loop {A B} (body : A → B → M A) (acc : A) (l : list B) : M A :=
  match l with
  | [] => ret acc
  | b :: l' => call acc' <-- body acc b in for_loop body acc' l'
  end.

(** ** Construction, indexing and query building *)

Section WithCollaborators.
Context `{Collaborators}.

(** The values of [x] visited by
    [for (int x = -num_pixels_squared; x < num_pixels_squared; ++x)]. *)
Definition positions : list Z :=
  seqZ (- num_pixels_squared) (2 * num_pixels_squared).

(** The two loops of [make_weightmap], with the calls of the external
    [find_weight] written down: the first component is the map [wm], the
    second the arguments of every call made so far, in order. *)
Definition make_weightmap_run (this : ImgTerms)
    : gmap string double * list (Z * Z) :=
  foldl (λ st x,
           foldl (λ st c,
                    (<[make_coeff_term this x c := find_weight x c]> st.1,
                     st.2 ++ [(x, c)]))
                 st channels)
        (∅, []) positions.

Definition make_weightmap (this : ImgTerms) : gmap string double :=
  (make_weightmap_run this).1.

(** The pairs [(x, c)] in the order the two nested loops of
    [make_weightmap] visit them. *)
Definition weightmap_pairs : list (Z * Z) :=
  x ← positions; c ← channels; [(x, c)].

Definition weightmap_step (this : ImgTerms) (wm : gmap string double)
    (p : Z * Z) : gmap string double :=
  <[make_coeff_term this p.1 p.2 := find_weight p.1 p.2]> wm.

(** [#define Y_MIN 0.0] and the five macros after it: each literal is
    the binary64 value nearest to the decimal. *)
#[warnings="-inexact-float"]
Definition Y_MIN : PrimFloat.float := 0.0%float.
#[warnings="-inexact-float"]
Definition Y_MAX : PrimFloat.float := 1.0%float.
#[warnings="-inexact-float"]
Definition I_MIN : PrimFloat.float := (-0.523)%float.
#[warnings="-inexact-float"]
Definition I_MAX : PrimFloat.float := 0.523%float.
#[warnings="-inexact-float"]
Definition Q_MIN : PrimFloat.float := (-0.596)%float.
#[warnings="-inexact-float"]
Definition Q_MAX : PrimFloat.float := 0.596%float.

(** [v[i]] on a [std::vector]; [None] is an access past the end. *)
Definition vector_at {A : Type} (v : list A) (i : Z) : option A :=
  if i <? 0 then None else v !! Z.to_nat i.

Definition set_weightmap (wm : gmap string double) (this : ImgTerms) : ImgTerms :=
  {| prefix := prefix this; weightmap := wm;
     colour_vals := colour_vals this;
     colour_average_accels := colour_average_accels this |}.

Definition push_colour_val (v : valueno) (this : ImgTerms) : ImgTerms :=
  {| prefix := prefix this; weightmap := weightmap this;
     colour_vals := colour_vals this ++ [v];
     colour_average_accels := colour_average_accels this |}.

Definition push_accel (a : RangeAccelerator) (this : ImgTerms) : ImgTerms :=
  {| prefix := prefix this; weightmap := weightmap this;
     colour_vals := colour_vals this;
     colour_average_accels := colour_average_accels this ++ [a] |}.

(** The constructor [ImgTerms::ImgTerms(prefix_, v1, v2, v3)]: the two
    member initialisers, then the body. [None] stands for an access past
    the end of [colour_vals]. *)
Definition ImgTerms_new (prefix_ : string) (v1 v2 v3 : valueno) : option ImgTerms :=
  let this := {| prefix := prefix_; weightmap := ∅;
                 colour_vals := []; colour_average_accels := [] |} in
  let this := set_weightmap (make_weightmap this) this in
  let this := push_colour_val v1 this in
  let this := push_colour_val v2 this in
  let this := push_colour_val v3 this in
  slot0 ← vector_at (colour_vals this) 0;
  let this := push_accel {| ra_prefix := prefix this +:+ "A0"; ra_valnum := slot0;
                            ra_lo := Y_MIN; ra_hi := Y_MAX;
                            ra_step := PrimFloat.div (PrimFloat.sub Y_MAX Y_MIN)
                                                     255.0%float |} this in
  slot1 ← vector_at (colour_vals this) 1;
  let this := push_accel {| ra_prefix := prefix this +:+ "A1"; ra_valnum := slot1;
                            ra_lo := I_MIN; ra_hi := I_MAX;
                            ra_step := PrimFloat.div (PrimFloat.sub I_MAX I_MIN)
                                                     255.0%float |} this in
  slot2 ← vector_at (colour_vals this) 2;
  let this := push_accel {| ra_prefix := prefix this +:+ "A2"; ra_valnum := slot2;
                            ra_lo := Q_MIN; ra_hi := Q_MAX;
                            ra_step := PrimFloat.div (PrimFloat.sub Q_MAX Q_MIN)
                                                     255.0%float |} this in
  Some this.

(** [add_coeff_terms(s, c, r)]: [r] is the set passed by reference, the
    result is its final content. *)
Definition add_coeff_terms (this : ImgTerms) (s : list Z) (c : Z)
    (r : gset string) : gset string :=
  foldl (λ r x, {[ make_coeff_term this x c ]} ∪ r) r s.

Definition make_coeff_terms (this : ImgTerms) (sig : ImgSig) : gset string :=
  let terms := ∅ in
  let terms := add_coeff_terms this (sig1 sig) 0 terms in
  let terms := add_coeff_terms this (sig2 sig) 1 terms in
  let terms := add_coeff_terms this (sig3 sig) 2 terms in
  terms.

(** The sequence an iterator over a [CoeffTerms] set yields. *)
Definition CoeffTerms_iter (terms : gset string) : list string :=
  merge_sort string_le (elements terms).

(** Modelled from the spec: [RangeAccelerator::add_val] is not part of
    the sources. It stores the value verbatim in the accelerator's raw
    field; the stored form is the serialised double that
    [make_averages_query] decodes. *)
Definition add_val (acc : RangeAccelerator) (val : double) (d : Document) : Document :=
  add_value (ra_valnum acc) (serialise_double val) d.

(** [RangeAccelerator::query_for_val_distance], kept as a node of the
    query: how it weighs buckets is the accelerator's own policy. *)
Definition query_for_val_distance (acc : RangeAccelerator) (val : double) : Query :=
  Query_val_distance acc val.

(** *** Indexing *)

Definition AddTerms (sig : ImgSig) : M unit :=
  call this <-- get_this in
  let terms := make_coeff_terms this sig in
  call u <-- for_loop (λ _ t, modify_doc (add_term t)) tt (CoeffTerms_iter terms) in
  for_loop (λ _ c,
              call acc <-- deref (vector_at (colour_average_accels this) c) in
              call val <-- deref (avgl sig c) in
              modify_doc (add_val acc val))
           tt channels.

(** *** Query building *)

(** The [while] loop of [make_coeff_query]; [it] is what is left of the
    term list. *)
Fixpoint coeff_scan (cprefix : string) (it : list string) (query : Query) : M Query :=
  match it with
  | [] => ret query
  | t :: it' =>
      if startswith t cprefix then
        call this <-- get_this in
        let subq := Query_term t in
        call pos <-- deref (weightmap this !! t) in
        let subq := Query_scale_weight subq pos in
        let query := Query_or query subq in
        coeff_scan cprefix it' query
      else ret query
  end.

(** The terms the [while] loop visits when it starts at [it]: the
    longest run of terms that begin with [cprefix]. *)
Fixpoint prefix_scan (cprefix : string) (it : list string) : list string :=
  match it with
  | [] => []
  | t :: it' => if startswith t cprefix then t :: prefix_scan cprefix it' else []
  end.

(** One round of the [for] loop of [make_coeff_query]. *)
Definition coeff_channel (query : Query) (c : Z) : M Query :=
  call doc <-- get_doc in
  call this <-- get_this in
  let it := termlist doc in
  let cprefix := colourprefix this c in
  let it := skip_to cprefix it in
  coeff_scan cprefix it query.

Definition make_coeff_query : M Query :=
  for_loop coeff_channel Query_empty channels.

(** One round of the [for] loop of [make_averages_query]. *)
Definition averages_channel (query : Query) (c : Z) : M Query :=
  call doc <-- get_doc in
  call this <-- get_this in
  call slot <-- deref (vector_at (colour_vals this) c) in
  let doc_val := get_value slot doc in
  call val <-- match unserialise_double doc_val with
               | inr val => ret val
               | inl (NetworkError msg) => throw (InvalidArgumentError msg)
               | inl e => throw e
               end in
  call acc <-- deref (vector_at (colour_average_accels this) c) in
  call w <-- deref (weights_at 0 c) in
  let subq := Query_scale_weight (query_for_val_distance acc val) w in
  ret (Query_or query subq).

Definition make_averages_query : M Query :=
  for_loop averages_channel Query_empty channels.

(** The two arguments of the [OP_OR] constructor are evaluated left to
    right here; C++ leaves their order open. Both only read (see
    [read_only_querySimilar]), so the order shows only when one of them is
    undefined while the other throws. *)
Definition querySimilar : M Query :=
  call coeffs <-- make_coeff_query in
  call averages <-- make_averages_query in
  ret (Query_or coeffs averages).

End WithCollaborators.

(** ** Readings of two sentences of the design document *)

(** "The builder fails with an invalid-argument condition identifying
    which channel": some function recovers, from the error alone, the
    first channel whose stored average the decoder rejects. *)
Definition error_names_channel (channel_of : Error → Z) : Prop :=
  ∀ (C : Collaborators) (prefix_ : string) (v1 v2 v3 : valueno)
    (this : ImgTerms) (d : Document) (c : Z) (slot : valueno) (msg : string),
    ImgTerms_new prefix_ v1 v2 v3 = Some this →
    c ∈ channels →
    vector_at (colour_vals this) c = Some slot →
    unserialise_double (get_value slot d) = inl (NetworkError msg) →
    (∀ c' slot', c' ∈ channels → c' < c →
       vector_at (colour_vals this) c' = Some slot' →
       ∃ val, unserialise_double (get_value slot' d) = inr val) →
    ∃ e, make_averages_query {| w_doc := d; w_this := this |}
         = Throw e {| w_doc := d; w_this := this |} ∧
         is_invalid_argument e = true ∧ channel_of e = c.

(** "For every document without a channel-prefixed term, [querySimilar]
    still succeeds." *)
Definition querySimilar_succeeds_without_terms : Prop :=
  ∀ (C : Collaborators) (prefix_ : string) (v1 v2 v3 : valueno)
    (this : ImgTerms) (d : Document),
    ImgTerms_new prefix_ v1 v2 v3 = Some this →
    (∀ t c, t ∈ doc_terms d → c ∈ channels →
            startswith t (colourprefix this c) = false) →
    ∃ q w', querySimilar {| w_doc := d; w_this := this |} = Ret q w'.

(** ** Concrete collaborators for the examples

    A small configuration on which the definitions above can be run. The
    weight function reads the table [weights] with the bin
    [min(|idx|, 5)]; the codec writes a rational as numerator and
    denominator in decimal, separated by a slash, and rejects everything
    else, the empty string of an absent field included. *)

Fixpoint split_slash (s : string) : option (string * string) :=
  match s with
  | EmptyString => None
  | String a s' =>
      if Ascii.eqb a "/" then Some (EmptyString, s')
      else match split_slash s' with
           | Some (l, r) => Some (String a l, r)
           | None => None
           end
  end.

Definition sample_serialise_double (v : double) : string :=
  to_string (Qnum v) +:+ "/" +:+ to_string (Zpos (Qden v)).

Definition sample_unserialise_double (s : string) : Error + double :=
  match split_slash s with
  | None => inl (NetworkError "Bad encoded double: insufficient data")
  | Some (n, d) =>
      match NilZero.int_of_string n, NilZero.int_of_string d with
      | Some n, Some d =>
          match Z.of_int d with
          | Zpos p => inr (Z.of_int n # p)%Q
          | _ => inl (NetworkError "Bad encoded double: bad denominator")
          end
      | _, _ => inl (NetworkError "Bad encoded double: not a number")
      end
  end.

Definition sample_find_weight (idx colour : Z) : double :=
  default 0%Q (weights_at (Z.min (Z.abs idx) 5) colour).

Definition sample_collaborators : Collaborators :=
  {| num_pixels_squared := 16384;
     find_weight := sample_find_weight;
     unserialise_double := sample_unserialise_double;
     serialise_double := sample_serialise_double |}.

(** A document whose three averages are stored in slots 1, 2 and 3, and
    two documents that each lack one of them. *)
Definition doc_with_averages : Document :=
  add_value 3 (sample_serialise_double (-0.1)%Q)
    (add_value 2 (sample_serialise_double 0.0%Q)
       (add_value 1 (sample_serialise_double 0.5%Q) Document_new)).

Definition doc_without_Y : Document :=
  add_value 3 (sample_serialise_double (-0.1)%Q)
    (add_value 2 (sample_serialise_double 0.0%Q) Document_new).

Definition doc_without_I : Document :=
  add_value 3 (sample_serialise_double (-0.1)%Q)
    (add_value 1 (sample_serialise_double 0.5%Q) Document_new).

(** The signature of the end-to-end scenario. *)
Definition scenario_sig : ImgSig :=
  {| sig1 := [0; 5; -3]; sig2 := [2]; sig3 := [];
     avgl0 := 0.5%Q; avgl1 := 0.0%Q; avgl2 := (-0.1)%Q |}.

(** The same collaborators over a coefficient space of half-width 8,
    small enough to run the whole pipeline by computation. *)
Definition small_collaborators : Collaborators :=
  {| num_pixels_squared := 8;
     find_weight := sample_find_weight;
     unserialise_double := sample_unserialise_double;
     serialise_double := sample_serialise_double |}.

(** The world after [ImgTerms("IMG", 1, 2, 3)] has indexed the scenario
    signature into a fresh document. *)
Definition scenario_world : option World :=
  this ← @ImgTerms_new small_collaborators "IMG" 1 2 3;
  match @AddTerms small_collaborators scenario_sig
          {| w_doc := Document_new; w_this := this |} with
  | Ret _ w => Some w
  | _ => None
  end.

Definition returned {A} (o : outcome A) : option A :=
  match o with Ret a _ => Some a | _ => None end.

(** ** Descriptions the query builders are compared with *)

(** The terms of a document that begin with a channel prefix, channel
    after channel, each channel's terms in increasing order. *)
Definition coeff_matches (this : ImgTerms) (d : Document) : list string :=
  c ← channels;
  filter (λ t, startswith t (colourprefix this c) = true) (termlist d).

(** The weight-map entry of every term of a list; [None] as soon as one
    term has no entry. *)
Fixpoint weights_of (wm : gmap string double) (ts : list string)
    : option (list (string * double)) :=
  match ts with
  | [] => Some []
  | t :: ts' =>
      match wm !! t, weights_of wm ts' with
      | Some w, Some tws => Some ((t, w) :: tws)
      | _, _ => None
      end
  end.

(** [query] OR-ed, from the left, with one scaled single-term query per
    pair. *)
Definition weighted_or (query : Query) (tws : list (string * double)) : Query :=
  foldl (λ q tw, Query_or q (Query_scale_weight (Query_term tw.1) tw.2))
        query tws.

(** What leaves the [try] block of [make_averages_query] when the
    decoder throws [e]. *)
Definition rethrown (e : Error) : Error :=
  match e with
  | NetworkError msg => InvalidArgumentError msg
  | _ => e
  end.

(** The coefficient container of channel [c]: the one [make_coeff_terms]
    passes to [add_coeff_terms] together with [c]. *)
Definition sig_channel (sig : ImgSig) (c : Z) : list Z :=
  match c with
  | 0 => sig1 sig
  | 1 => sig2 sig
  | 2 => sig3 sig
  | _ => []
  end.

(** The averages query for three decoded values. *)
Definition averages_or (a0 a1 a2 : RangeAccelerator) (val0 val1 val2 : double)
    : Query :=
  Query_or
    (Query_or
       (Query_or Query_empty
          (Query_scale_weight (query_for_val_distance a0 val0) 5.00%Q))
       (Query_scale_weight (query_for_val_distance a1 val1) 19.21%Q))
    (Query_scale_weight (query_for_val_distance a2 val2) 34.37%Q).

(** * Properties *)

(** ** Strings and terms *)

Lemma startswith_prefix (s start : string) :
  startswith s start = String.prefix start s.
Proof.
  unfold startswith, find.
  destruct s as [|a s].
  - destruct start; reflexivity.
  - change (index 0 start (String a s))
      with (if String.prefix start (String a s) then Some 0%nat
            else match index 0 start s with
                 | Some n => Some (S n)
                 | None => None
                 end).
    destruct (String.prefix start (String a s)); [reflexivity|].
    destruct (index 0 start s); reflexivity.
Qed.

Lemma prefix_append (p a b : string) :
  String.prefix (p +:+ a) (p +:+ b) = String.prefix a b.
Proof.
  induction p as [|x p IH]; simpl; [reflexivity|].
  destruct (ascii_dec x x); [exact IH | congruence].
Qed.

Lemma prefix_append_self (p s : string) : String.prefix p (p +:+ s) = true.
Proof.
  induction p as [|x p IH]; simpl; [by destruct s|].
  destruct (ascii_dec x x); [exact IH | congruence].
Qed.

Lemma prefix_refl (p : string) : String.prefix p p = true.
Proof.
  induction p as [|x p IH]; simpl; [reflexivity|].
  destruct (ascii_dec x x); [exact IH | congruence].
Qed.

Lemma append_assoc (a b c : string) : (a +:+ b) +:+ c = a +:+ (b +:+ c).
Proof.
  induction a as [|x a IH]; [reflexivity|].
  change (String x ((a +:+ b) +:+ c) = String x (a +:+ (b +:+ c))).
  by rewrite IH.
Qed.

Lemma to_int_proper (x : Z) :
  Z.to_int x ≠ Decimal.Pos Decimal.Nil ∧ Z.to_int x ≠ Decimal.Neg Decimal.Nil.
Proof.
  destruct x as [|p|p]; simpl; split; try discriminate;
    intros E; injection E as E; exact (Unsigned.to_uint_nonnil p E).
Qed.

Lemma to_string_inj (x y : Z) : to_string x = to_string y → x = y.
Proof.
  unfold to_string. intros E.
  apply DecimalZ.to_int_inj.
  destruct (to_int_proper x) as [Hx1 Hx2], (to_int_proper y) as [Hy1 Hy2].
  pose proof (NilZero.isi _ Hx1 Hx2) as Ex.
  pose proof (NilZero.isi _ Hy1 Hy2) as Ey.
  rewrite E in Ex. congruence.
Qed.

(** A channel number is rendered as a single digit. *)
Lemma to_string_channel (c : Z) :
  c ∈ channels → ∃ a, to_string c = String a EmptyString ∧
                      a = ascii_of_nat (48 + Z.to_nat c).
Proof.
  unfold channels. intros Hc.
  repeat (apply elem_of_cons in Hc as [-> | Hc]); [ | | | by apply elem_of_nil in Hc];
    eexists; split; reflexivity.
Qed.

Lemma make_coeff_term_inj (this : ImgTerms) (x x' c c' : Z) :
  c ∈ channels → c' ∈ channels →
  make_coeff_term this x c = make_coeff_term this x' c' → x = x' ∧ c = c'.
Proof.
  intros Hc Hc'. unfold make_coeff_term, colourprefix.
  rewrite !append_assoc. intros E. apply String.app_inj in E.
  destruct (to_string_channel c Hc) as (a & Ea & Ha).
  destruct (to_string_channel c' Hc') as (a' & Ea' & Ha').
  rewrite Ea, Ea' in E. simpl in E. injection E as E1 E2.
  apply to_string_inj in E2. split; [exact E2|].
  apply to_string_inj. congruence.
Qed.

Lemma elem_of_channels (c : Z) : c ∈ channels ↔ c = 0 ∨ c = 1 ∨ c = 2.
Proof.
  unfold channels. rewrite !elem_of_cons, elem_of_nil. tauto.
Qed.

(** C4. Two different channels never share a prefix: neither channel
    prefix equals or begins the other, and no coefficient term of one
    channel is a coefficient term of the other, whatever the
    positions. *)
Theorem channel_prefixes_never_collide (this : ImgTerms) (c1 c2 : Z) :
  c1 ∈ channels → c2 ∈ channels → c1 ≠ c2 →
  colourprefix this c1 ≠ colourprefix this c2 ∧
  String.prefix (colourprefix this c1) (colourprefix this c2) = false ∧
  startswith (colourprefix this c2) (colourprefix this c1) = false ∧
  ∀ p1 p2 : Z, make_coeff_term this p1 c1 ≠ make_coeff_term this p2 c2.
Proof.
  intros H1 H2 Hne.
  assert (Hpre : String.prefix (colourprefix this c1) (colourprefix this c2) = false).
  { unfold colourprefix. rewrite prefix_append.
    apply elem_of_channels in H1 as [-> | [-> | ->]];
      apply elem_of_channels in H2 as [-> | [-> | ->]];
      try reflexivity; contradiction. }
  repeat split.
  - intros E. rewrite E, prefix_refl in Hpre. discriminate Hpre.
  - exact Hpre.
  - rewrite startswith_prefix. exact Hpre.
  - intros p1 p2 E.
    apply make_coeff_term_inj in E as [_ E]; [contradiction | done | done].
Qed.

Lemma channel_prefixes_never_collide_witness :
  colourprefix {| prefix := "IMG"; weightmap := ∅; colour_vals := [];
                  colour_average_accels := [] |} 0
  ≠ colourprefix {| prefix := "IMG"; weightmap := ∅; colour_vals := [];
                    colour_average_accels := [] |} 1.
Proof.
  refine (proj1 (channel_prefixes_never_collide _ 0 1 _ _ _)).
  - apply elem_of_channels. left. reflexivity.
  - apply elem_of_channels. right. left. reflexivity.
  - discriminate.
Defined.

(** ** The weight map *)

Section Properties.
Context `{Collaborators}.

Lemma make_weightmap_run_pairs (this : ImgTerms) :
  make_weightmap_run this
  = (foldl (weightmap_step this) ∅ weightmap_pairs, weightmap_pairs).
Proof.
  unfold make_weightmap_run, weightmap_pairs.
  assert (Hgen : ∀ (xs : list Z) (st : gmap string double * list (Z * Z)),
            foldl (λ st x,
                     foldl (λ st c,
                              (<[make_coeff_term this x c := find_weight x c]> st.1,
                               st.2 ++ [(x, c)]))
                           st channels)
                  st xs
            = (foldl (weightmap_step this) st.1 (x ← xs; c ← channels; [(x, c)]),
               st.2 ++ (x ← xs; c ← channels; [(x, c)]))).
  { induction xs as [|x xs IH]; intros [wm calls].
    - cbn. by rewrite app_nil_r.
    - cbn [foldl]. rewrite IH, bind_cons, foldl_app. cbn.
      by rewrite <- !app_assoc. }
  by rewrite Hgen.
Qed.

Lemma make_weightmap_pairs (this : ImgTerms) :
  make_weightmap this = foldl (weightmap_step this) ∅ weightmap_pairs.
Proof. unfold make_weightmap. by rewrite make_weightmap_run_pairs. Qed.

Lemma elem_of_weightmap_pairs (x c : Z) :
  (x, c) ∈ weightmap_pairs ↔
  (- num_pixels_squared ≤ x < num_pixels_squared ∧ c ∈ channels).
Proof.
  unfold weightmap_pairs, positions.
  rewrite list_elem_of_bind. split.
  - intros (x' & Hin & Hx'). apply elem_of_seqZ in Hx'.
    apply list_elem_of_bind in Hin as (c' & Hin & Hc').
    apply list_elem_of_singleton in Hin. injection Hin as -> ->.
    split; [lia | exact Hc'].
  - intros [Hx Hc]. exists x. split.
    + apply list_elem_of_bind. exists c. split; [|exact Hc].
      apply list_elem_of_singleton. reflexivity.
    + apply elem_of_seqZ. lia.
Qed.

Lemma NoDup_weightmap_pairs : NoDup weightmap_pairs.
Proof.
  unfold weightmap_pairs.
  assert (Hpos : NoDup positions) by apply NoDup_seqZ.
  induction Hpos as [|x xs Hx Hxs IH]; [constructor|].
  cbn [mbind list_bind]. apply NoDup_app. split; [|split].
  - unfold channels. cbn. repeat constructor;
      rewrite ?elem_of_cons, ?elem_of_nil; intros E;
      repeat destruct E as [E | E]; try discriminate; done.
  - intros [x' c'] Hin Hin'.
    apply list_elem_of_bind in Hin as (c0 & Hin & _).
    apply list_elem_of_singleton in Hin. injection Hin as E1 E2.
    apply list_elem_of_bind in Hin' as (x1 & Hin' & Hx1).
    apply list_elem_of_bind in Hin' as (c1 & Hin' & _).
    apply list_elem_of_singleton in Hin'. injection Hin' as E3 E4.
    subst. contradiction.
  - exact IH.
Qed.

(** What a run of insertions leaves under a key that every writer of
    that key agrees on. *)
Lemma foldl_insert_lookup {A} (k : A → string) (v : A → double)
    (l : list A) (m : gmap string double) (key : string) (val : double) :
  (∀ q, q ∈ l → k q = key → v q = val) →
  (∃ q, q ∈ l ∧ k q = key) →
  foldl (λ wm q, <[k q := v q]> wm) m l !! key = Some val.
Proof.
  induction l as [|q l IH] using rev_ind; intros Hval (q0 & Hin & Hk).
  - by apply elem_of_nil in Hin.
  - rewrite foldl_app. cbn [foldl].
    destruct (decide (k q = key)) as [E | NE].
    + rewrite E, lookup_insert_eq. f_equal. apply Hval; [|exact E].
      apply elem_of_app. right. by apply list_elem_of_singleton.
    + rewrite lookup_insert_ne by exact NE. apply IH.
      * intros q' Hq'. apply Hval. apply elem_of_app. by left.
      * exists q0. split; [|exact Hk].
        apply elem_of_app in Hin as [Hin | Hin]; [exact Hin|].
        apply list_elem_of_singleton in Hin. congruence.
Qed.

Lemma foldl_insert_is_Some {A} (k : A → string) (v : A → double)
    (l : list A) (m : gmap string double) (key : string) :
  is_Some (foldl (λ wm q, <[k q := v q]> wm) m l !! key) →
  is_Some (m !! key) ∨ ∃ q, q ∈ l ∧ k q = key.
Proof.
  induction l as [|q l IH] using rev_ind; [by left|].
  rewrite foldl_app. cbn [foldl]. intros Hsome.
  destruct (decide (k q = key)) as [E | NE].
  - right. exists q. split; [|exact E].
    apply elem_of_app. right. by apply list_elem_of_singleton.
  - rewrite lookup_insert_ne in Hsome by exact NE.
    destruct (IH Hsome) as [Hm | (q' & Hq' & E)]; [by left|].
    right. exists q'. split; [|exact E]. apply elem_of_app. by left.
Qed.

Lemma make_weightmap_lookup (this : ImgTerms) (x c : Z) :
  - num_pixels_squared ≤ x < num_pixels_squared → c ∈ channels →
  make_weightmap this !! make_coeff_term this x c = Some (find_weight x c).
Proof.
  intros Hx Hc. rewrite make_weightmap_pairs.
  apply (foldl_insert_lookup (λ p, make_coeff_term this p.1 p.2)
                             (λ p, find_weight p.1 p.2)).
  - intros [x' c'] Hin E. cbn in E |- *.
    apply elem_of_weightmap_pairs in Hin as [_ Hc'].
    apply make_coeff_term_inj in E as [-> ->]; done.
  - exists (x, c). split; [|reflexivity].
    apply elem_of_weightmap_pairs. done.
Qed.

Lemma make_weightmap_is_Some (this : ImgTerms) (t : string) :
  is_Some (make_weightmap this !! t) ↔
  ∃ x c, - num_pixels_squared ≤ x < num_pixels_squared ∧ c ∈ channels ∧
         t = make_coeff_term this x c.
Proof.
  split.
  - rewrite make_weightmap_pairs. intros Hsome.
    apply (foldl_insert_is_Some (λ p, make_coeff_term this p.1 p.2)
             (λ p, find_weight p.1 p.2)) in Hsome
      as [Hsome | ([x c] & Hin & E)].
    + rewrite lookup_empty in Hsome. by destruct Hsome.
    + apply elem_of_weightmap_pairs in Hin as [Hx Hc]. by exists x, c.
  - intros (x & c & Hx & Hc & ->). rewrite make_weightmap_lookup; done.
Qed.

(** The object the constructor returns. *)
Lemma ImgTerms_new_fields (prefix_ : string) (v1 v2 v3 : valueno) :
  ∃ this, ImgTerms_new prefix_ v1 v2 v3 = Some this ∧
    prefix this = prefix_ ∧
    weightmap this = make_weightmap this ∧
    colour_vals this = [v1; v2; v3] ∧
    colour_average_accels this =
      [ {| ra_prefix := prefix_ +:+ "A0"; ra_valnum := v1;
           ra_lo := Y_MIN; ra_hi := Y_MAX;
           ra_step := PrimFloat.div (PrimFloat.sub Y_MAX Y_MIN) 255.0%float |};
        {| ra_prefix := prefix_ +:+ "A1"; ra_valnum := v2;
           ra_lo := I_MIN; ra_hi := I_MAX;
           ra_step := PrimFloat.div (PrimFloat.sub I_MAX I_MIN) 255.0%float |};
        {| ra_prefix := prefix_ +:+ "A2"; ra_valnum := v3;
           ra_lo := Q_MIN; ra_hi := Q_MAX;
           ra_step := PrimFloat.div (PrimFloat.sub Q_MAX Q_MIN) 255.0%float |} ].
Proof. eexists. repeat split. Qed.



(** ** The range discretizers *)





(** ** Term lists and coefficient terms *)

Lemma elem_of_termlist (d : Document) (t : string) :
  t ∈ termlist d ↔ t ∈ doc_terms d.
Proof.
  unfold termlist. rewrite merge_sort_Permutation. apply elem_of_elements.
Qed.

Lemma elem_of_CoeffTerms_iter (terms : gset string) (t : string) :
  t ∈ CoeffTerms_iter terms ↔ t ∈ terms.
Proof.
  unfold CoeffTerms_iter. rewrite merge_sort_Permutation. apply elem_of_elements.
Qed.

Lemma skip_to_suffix (tname : string) (it : list string) :
  ∃ skipped, it = skipped ++ skip_to tname it.
Proof.
  induction it as [|t it [sk IH]]; [by exists []|]. simpl.
  destruct (String.ltb t tname).
  - exists (t :: sk). simpl. by rewrite <- IH.
  - by exists [].
Qed.

Lemma elem_of_skip_to (tname : string) (it : list string) (t : string) :
  t ∈ skip_to tname it → t ∈ it.
Proof.
  destruct (skip_to_suffix tname it) as [sk E]. intros Hin.
  rewrite E. apply elem_of_app. by right.
Qed.

Lemma elem_of_prefix_scan (cprefix : string) (it : list string) (t : string) :
  t ∈ prefix_scan cprefix it → t ∈ it ∧ startswith t cprefix = true.
Proof.
  induction it as [|u it IH]; simpl; [by rewrite elem_of_nil|].
  destruct (startswith u cprefix) eqn:E; [|by rewrite elem_of_nil].
  rewrite !elem_of_cons. intros [-> | Hin]; [by split; [left|]|].
  destruct (IH Hin). by split; [right|].
Qed.

Lemma elem_of_add_coeff_terms (this : ImgTerms) (s : list Z) (c : Z)
    (r : gset string) (t : string) :
  t ∈ add_coeff_terms this s c r ↔
  t ∈ r ∨ ∃ x, x ∈ s ∧ t = make_coeff_term this x c.
Proof.
  unfold add_coeff_terms. revert r.
  induction s as [|x s IH]; intros r; simpl.
  - split; [by left|]. intros [Hin | (x & Hx & _)]; [done|].
    by apply elem_of_nil in Hx.
  - rewrite IH, elem_of_union, elem_of_singleton. split.
    + intros [[-> | Hin] | (x' & Hx' & ->)].
      * right. exists x. split; [by left | done].
      * by left.
      * right. exists x'. split; [by right | done].
    + intros [Hin | (x' & Hx' & ->)]; [by left; right|].
      apply elem_of_cons in Hx' as [-> | Hx']; [by left; left|].
      right. by exists x'.
Qed.

Lemma elem_of_make_coeff_terms (this : ImgTerms) (sig : ImgSig) (t : string) :
  t ∈ make_coeff_terms this sig ↔
  (∃ x, x ∈ sig1 sig ∧ t = make_coeff_term this x 0) ∨
  (∃ x, x ∈ sig2 sig ∧ t = make_coeff_term this x 1) ∨
  (∃ x, x ∈ sig3 sig ∧ t = make_coeff_term this x 2).
Proof.
  unfold make_coeff_terms. rewrite !elem_of_add_coeff_terms.
  rewrite elem_of_empty. tauto.
Qed.

(** ** Computations that only read *)

Lemma read_only_ret {A} (a : A) : read_only (ret a).
Proof. intros w. reflexivity. Qed.

Lemma read_only_throw {A} (e : Error) : read_only (throw e : M A).
Proof. intros w. reflexivity. Qed.

Lemma read_only_deref {A} (o : option A) : read_only (deref o).
Proof. intros w. destruct o; simpl; done. Qed.

Lemma read_only_get_doc : read_only get_doc.
Proof. intros w. reflexivity. Qed.

Lemma read_only_get_this : read_only get_this.
Proof. intros w. reflexivity. Qed.

Lemma read_only_bind {A B} (m : M A) (k : A → M B) :
  read_only m → (∀ a, read_only (k a)) → read_only (bind m k).
Proof.
  intros Hm Hk w. unfold bind. specialize (Hm w).
  destruct (m w) as [a w' | e w' | ]; [|exact Hm|exact I].
  subst w'. apply Hk.
Qed.

Lemma read_only_for_loop {A B} (body : A → B → M A) (acc : A) (l : list B) :
  (∀ a b, read_only (body a b)) → read_only (for_loop body acc l).
Proof.
  intros Hbody. revert acc.
  induction l as [|b l IH]; intros acc; simpl.
  - apply read_only_ret.
  - apply read_only_bind; [apply Hbody | intros a; apply IH].
Qed.

Create HintDb read_only.

Local Hint Resolve read_only_ret read_only_throw read_only_deref
  read_only_get_doc read_only_get_this : read_only.

Ltac read_only_steps :=
  repeat first
    [ apply read_only_bind; [ | intros ? ]
    | solve [ auto with read_only ] ].

Lemma read_only_coeff_scan (cprefix : string) (it : list string) (query : Query) :
  read_only (coeff_scan cprefix it query).
Proof.
  revert query. induction it as [|t it IH]; intros query; simpl.
  - apply read_only_ret.
  - destruct (startswith t cprefix); [|apply read_only_ret].
    read_only_steps.
Qed.

Lemma read_only_make_coeff_query : read_only make_coeff_query.
Proof.
  apply read_only_for_loop. intros query c. unfold coeff_channel.
  read_only_steps. apply read_only_coeff_scan.
Qed.

Lemma read_only_make_averages_query : read_only make_averages_query.
Proof.
  apply read_only_for_loop. intros query c. unfold averages_channel.
  read_only_steps.
  destruct (unserialise_double _) as [[msg | msg | kind msg] | val];
    auto with read_only.
Qed.

Lemma read_only_querySimilar : read_only querySimilar.
Proof.
  unfold querySimilar.
  apply read_only_bind; [apply read_only_make_coeff_query | intros coeffs].
  apply read_only_bind; [apply read_only_make_averages_query | intros averages].
  apply read_only_ret.
Qed.

(** ** Indexing *)

Lemma add_terms_loop (l : list string) (d : Document) (this : ImgTerms) :
  for_loop (λ _ t, modify_doc (add_term t)) tt l {| w_doc := d; w_this := this |}
  = Ret tt {| w_doc := {| doc_terms := list_to_set l ∪ doc_terms d;
                          doc_values := doc_values d |};
              w_this := this |}.
Proof.
  revert d. induction l as [|t l IH]; intros [terms vals]; simpl.
  - unfold ret. do 3 f_equal. by rewrite (left_id_L ∅ (∪)).
  - unfold bind, modify_doc. simpl. rewrite IH. simpl.
    do 3 f_equal. by rewrite (assoc_L (∪)), (comm_L (∪) (list_to_set l)).
Qed.

Lemma list_to_set_CoeffTerms_iter (terms : gset string) :
  list_to_set (CoeffTerms_iter terms) = terms.
Proof.
  apply set_eq. intros t.
  rewrite elem_of_list_to_set. apply elem_of_CoeffTerms_iter.
Qed.

(** What [AddTerms] leaves behind when [this] holds its three
    accelerators. *)
Lemma AddTerms_run (this : ImgTerms) (d : Document) (sig : ImgSig)
    (a0 a1 a2 : RangeAccelerator) (rest : list RangeAccelerator) :
  colour_average_accels this = a0 :: a1 :: a2 :: rest →
  AddTerms sig {| w_doc := d; w_this := this |}
  = Ret tt {| w_doc :=
                add_val a2 (avgl2 sig)
                  (add_val a1 (avgl1 sig)
                     (add_val a0 (avgl0 sig)
                        {| doc_terms := make_coeff_terms this sig ∪ doc_terms d;
                           doc_values := doc_values d |}));
              w_this := this |}.
Proof.
  intros Haccs. unfold AddTerms, bind at 1, get_this. cbn [w_this].
  unfold bind at 1. rewrite add_terms_loop, list_to_set_CoeffTerms_iter.
  rewrite Haccs. reflexivity.
Qed.

Lemma AddTerms_keeps_this (sig : ImgSig) (w w' : World) (u : unit) :
  AddTerms sig w = Ret u w' → w_this w' = w_this w.
Proof.
  destruct w as [d this].
  destruct (colour_average_accels this) as [|a0 [|a1 [|a2 rest]]] eqn:Haccs.
  4: { rewrite (AddTerms_run this d sig a0 a1 a2 rest Haccs).
       intros E. injection E as _ E. rewrite <- E. reflexivity. }
  all: unfold AddTerms, bind at 1, get_this; cbn [w_this];
    unfold bind at 1; rewrite add_terms_loop, Haccs; discriminate.
Qed.

Lemma scenario_terms (this : ImgTerms) :
  make_coeff_terms this scenario_sig =
  {[ make_coeff_term this 0 0; make_coeff_term this 5 0;
     make_coeff_term this (-3) 0; make_coeff_term this 2 1 ]}.
Proof.
  apply set_eq. intros t. rewrite elem_of_make_coeff_terms.
  unfold scenario_sig; cbn [sig1 sig2 sig3].
  rewrite !elem_of_union, !elem_of_singleton. split.
  - intros [(x & Hx & ->) | [(x & Hx & ->) | (x & Hx & ->)]].
    + repeat (apply elem_of_cons in Hx as [-> | Hx]); [tauto..|].
      by apply elem_of_nil in Hx.
    + repeat (apply elem_of_cons in Hx as [-> | Hx]); [tauto|].
      by apply elem_of_nil in Hx.
    + by apply elem_of_nil in Hx.
  - intros [[[-> | ->] | ->] | ->].
    + left. exists 0. split; [set_solver | done].
    + left. exists 5. split; [set_solver | done].
    + left. exists (-3). split; [set_solver | done].
    + right. left. exists 2. split; [set_solver | done].
Qed.

(** C6. Indexing the scenario signature adds to the document exactly the
    four coefficient terms of positions 0, 5 and -3 under the channel-0
    prefix and of position 2 under the channel-1 prefix, adds none that
    begins with the channel-2 prefix, and stores the serialised averages
    0.5, 0.0 and -0.1 in the slots of the three accelerators, in that
    order. *)
Theorem scenario_indexing (prefix_ : string) (v1 v2 v3 : valueno)
    (this : ImgTerms) (d : Document) :
  ImgTerms_new prefix_ v1 v2 v3 = Some this →
  ∃ d', AddTerms scenario_sig {| w_doc := d; w_this := this |}
        = Ret tt {| w_doc := d'; w_this := this |} ∧
    doc_terms d' =
      {[ make_coeff_term this 0 0; make_coeff_term this 5 0;
         make_coeff_term this (-3) 0; make_coeff_term this 2 1 ]}
      ∪ doc_terms d ∧
    doc_terms d' =
      {[ prefix_ +:+ "00"; prefix_ +:+ "05"; prefix_ +:+ "0-3";
         prefix_ +:+ "12" ]} ∪ doc_terms d ∧
    (∀ t, t ∈ doc_terms d' → startswith t (colourprefix this 2) = true →
          t ∈ doc_terms d) ∧
    doc_values d' =
      <[v3 := serialise_double (-0.1)%Q]>
        (<[v2 := serialise_double 0.0%Q]>
           (<[v1 := serialise_double 0.5%Q]> (doc_values d))) ∧
    (v1 ≠ v2 → v1 ≠ v3 → v2 ≠ v3 →
     get_value v1 d' = serialise_double 0.5%Q ∧
     get_value v2 d' = serialise_double 0.0%Q ∧
     get_value v3 d' = serialise_double (-0.1)%Q).
Proof.
  intros Hnew.
  destruct (ImgTerms_new_fields prefix_ v1 v2 v3)
    as (this' & Hnew' & Hpre & _ & _ & Haccs).
  rewrite Hnew in Hnew'. injection Hnew' as <-.
  eexists. split; [apply (AddTerms_run this d scenario_sig _ _ _ [] Haccs)|].
  cbn [add_val add_value doc_terms doc_values ra_valnum scenario_sig
       avgl0 avgl1 avgl2].
  assert (Hterms : make_coeff_terms this scenario_sig =
    {[ prefix_ +:+ "00"; prefix_ +:+ "05"; prefix_ +:+ "0-3"; prefix_ +:+ "12" ]}).
  { rewrite scenario_terms. unfold make_coeff_term, colourprefix.
    rewrite Hpre, !append_assoc. reflexivity. }
  split; [by rewrite scenario_terms|]. split; [by rewrite Hterms|].
  split; [|split; [reflexivity|]].
  - intros t Hin Hstart. apply elem_of_union in Hin as [Hin | Hin]; [|exact Hin].
    exfalso. rewrite startswith_prefix in Hstart.
    rewrite scenario_terms in Hin.
    assert (Hno : ∀ x c, c ∈ channels → c ≠ 2 →
              String.prefix (colourprefix this 2) (make_coeff_term this x c) = false).
    { intros x c Hc Hne. unfold make_coeff_term, colourprefix.
      rewrite append_assoc, prefix_append.
      apply elem_of_channels in Hc as [-> | [-> | ->]]; [reflexivity..|done]. }
    rewrite !elem_of_union, !elem_of_singleton in Hin.
    destruct Hin as [[[-> | ->] | ->] | ->];
      rewrite Hno in Hstart by (rewrite ?elem_of_channels; lia);
      discriminate.
  - intros H12 H13 H23. unfold get_value, add_val, add_value.
    cbn [doc_values ra_valnum].
    rewrite lookup_insert_ne, lookup_insert_ne, lookup_insert_eq by done.
    rewrite (lookup_insert_ne _ v3 v2), lookup_insert_eq by done.
    rewrite lookup_insert_eq. done.
Qed.




(** C9. The three query builders hand back the document and the
    [ImgTerms] object exactly as they found them, whether they return a
    query or throw. [AddTerms] never touches the [ImgTerms] object either;
    on the document it only adds terms and writes the three value slots
    the object was constructed with. *)
Theorem only_AddTerms_mutates :
  read_only make_coeff_query ∧
  read_only make_averages_query ∧
  read_only querySimilar ∧
  (∀ sig w u w', AddTerms sig w = Ret u w' → w_this w' = w_this w) ∧
  (∀ sig w e w', AddTerms sig w ≠ Throw e w') ∧
  ∀ prefix_ v1 v2 v3 this d sig,
    ImgTerms_new prefix_ v1 v2 v3 = Some this →
    ∃ d', AddTerms sig {| w_doc := d; w_this := this |}
          = Ret tt {| w_doc := d'; w_this := this |} ∧
      doc_terms d' = make_coeff_terms this sig ∪ doc_terms d ∧
      ∀ slot, slot ≠ v1 → slot ≠ v2 → slot ≠ v3 →
              doc_values d' !! slot = doc_values d !! slot.
Proof.
  split; [apply read_only_make_coeff_query|].
  split; [apply read_only_make_averages_query|].
  split; [apply read_only_querySimilar|].
  split; [intros sig w u w'; apply AddTerms_keeps_this|].
  split.
  - intros sig [d this] e w'.
    destruct (colour_average_accels this) as [|a0 [|a1 [|a2 rest]]] eqn:Haccs.
    4: { rewrite (AddTerms_run this d sig a0 a1 a2 rest Haccs). discriminate. }
    all: unfold AddTerms, bind at 1, get_this; cbn [w_this];
      unfold bind at 1; rewrite add_terms_loop, Haccs; discriminate.
  - intros prefix_ v1 v2 v3 this d sig Hnew.
    destruct (ImgTerms_new_fields prefix_ v1 v2 v3)
      as (this' & Hnew' & _ & _ & _ & Haccs).
    rewrite Hnew in Hnew'. injection Hnew' as <-.
    eexists. split; [apply (AddTerms_run this d sig _ _ _ [] Haccs)|].
    split; [reflexivity|].
    intros slot N1 N2 N3. unfold add_val, add_value.
    cbn [doc_values ra_valnum].
    by rewrite !lookup_insert_ne.
Qed.

(** ** The coefficient query *)

Lemma ascii_compare_refl (a : ascii) : Ascii.compare a a = Eq.
Proof.
  pose proof (Ascii.compare_antisym a a) as E.
  destruct (Ascii.compare a a); [reflexivity | discriminate E..].
Qed.

Lemma ltb_append_self (p s : string) : String.ltb (p +:+ s) p = false.
Proof.
  unfold String.ltb. induction p as [|a p IH]; simpl.
  - by destruct s.
  - rewrite ascii_compare_refl. exact IH.
Qed.

Lemma to_string_not_x (x : Z) : to_string x ≠ "x".
Proof.
  unfold to_string. intros E.
  destruct (to_int_proper x) as [H1 H2].
  pose proof (NilZero.isi _ H1 H2) as Hparse.
  rewrite E in Hparse. discriminate Hparse.
Qed.

Lemma for_loop_returns {A B} (body : A → B → M A) (l : list B) (w : World) :
  (∀ a b, b ∈ l → ∃ a', body a b w = Ret a' w) →
  ∀ a, ∃ a', for_loop body a l w = Ret a' w.
Proof.
  induction l as [|b l IH]; intros Hbody a; simpl.
  - by exists a.
  - destruct (Hbody a b) as [a1 E1]; [by left|].
    unfold bind. rewrite E1. apply IH.
    intros a2 b2 Hb2. apply Hbody. by right.
Qed.

Lemma coeff_scan_defined (this : ImgTerms) (d : Document) (cprefix : string)
    (it : list string) (query : Query) :
  (∀ t, t ∈ prefix_scan cprefix it → is_Some (weightmap this !! t)) →
  ∃ q', coeff_scan cprefix it query {| w_doc := d; w_this := this |}
        = Ret q' {| w_doc := d; w_this := this |}.
Proof.
  revert query. induction it as [|t it IH]; intros query Hall; simpl.
  - by exists query.
  - simpl in Hall. destruct (startswith t cprefix); [|by exists query].
    destruct (Hall t) as [w Hw]; [by left|].
    unfold bind, get_this. cbn [w_this]. rewrite Hw. cbn [deref ret].
    apply IH. intros t' Ht'. apply Hall. by right.
Qed.

Lemma coeff_scan_no_match (w : World) (cprefix : string) (it : list string)
    (query : Query) :
  (∀ t, t ∈ it → startswith t cprefix = false) →
  coeff_scan cprefix it query w = Ret query w.
Proof.
  destruct it as [|t it]; intros Hall; simpl; [reflexivity|].
  rewrite Hall; [reflexivity | by left].
Qed.

(** The request that decides C2: every term of the document that begins
    with a channel prefix is a coefficient term of some signature whose
    positions are all in range. *)
Lemma indexed_terms_have_weights (this : ImgTerms) (d : Document) :
  weightmap this = make_weightmap this →
  (∀ t c, t ∈ doc_terms d → c ∈ channels →
          startswith t (colourprefix this c) = true →
          ∃ sig, sig_in_range num_pixels_squared sig ∧
                 t ∈ make_coeff_terms this sig) →
  ∀ c t, c ∈ channels →
    t ∈ prefix_scan (colourprefix this c)
          (skip_to (colourprefix this c) (termlist d)) →
    is_Some (weightmap this !! t).
Proof.
  intros Hwm Hpre c t Hc Hin.
  apply elem_of_prefix_scan in Hin as [Hin Hstart].
  apply elem_of_skip_to, elem_of_termlist in Hin.
  destruct (Hpre t c Hin Hc Hstart) as (sig & Hrange & Hterm).
  rewrite Hwm. apply make_weightmap_is_Some.
  apply elem_of_make_coeff_terms in Hterm
    as [(x & Hx & ->) | [(x & Hx & ->) | (x & Hx & ->)]].
  - exists x, 0. split; [|split; [|done]].
    + apply Hrange. rewrite !elem_of_app. tauto.
    + apply elem_of_channels. tauto.
  - exists x, 1. split; [|split; [|done]].
    + apply Hrange. rewrite !elem_of_app. tauto.
    + apply elem_of_channels. tauto.
  - exists x, 2. split; [|split; [|done]].
    + apply Hrange. rewrite !elem_of_app. tauto.
    + apply elem_of_channels. tauto.
Qed.

Lemma make_coeff_query_defined (this : ImgTerms) (d : Document) :
  (∀ c t, c ∈ channels →
     t ∈ prefix_scan (colourprefix this c)
           (skip_to (colourprefix this c) (termlist d)) →
     is_Some (weightmap this !! t)) →
  ∃ q, make_coeff_query {| w_doc := d; w_this := this |}
       = Ret q {| w_doc := d; w_this := this |}.
Proof.
  intros Hall. unfold make_coeff_query. apply for_loop_returns.
  intros query c Hc. unfold coeff_channel, bind, get_doc, get_this.
  cbn [w_doc w_this]. apply coeff_scan_defined. intros t. apply Hall, Hc.
Qed.

(** A term that begins with the channel-0 prefix and is no coefficient
    term: the lookup finds nothing and the result is dereferenced all
    the same. *)
Lemma make_coeff_query_unchecked (this : ImgTerms) :
  weightmap this = make_weightmap this →
  make_coeff_query {| w_doc := add_term (colourprefix this 0 +:+ "x") Document_new;
                      w_this := this |} = Undefined.
Proof.
  intros Hwm. unfold make_coeff_query, channels. cbn [for_loop].
  unfold bind at 1, coeff_channel at 1, bind at 1, get_doc. cbn [w_doc].
  unfold bind at 1, get_this. cbn [w_this].
  assert (Htl : termlist (add_term (colourprefix this 0 +:+ "x") Document_new)
                = [colourprefix this 0 +:+ "x"]).
  { unfold termlist, add_term, Document_new. cbn [doc_terms].
    rewrite (right_id_L ∅ (∪)), elements_singleton. reflexivity. }
  rewrite Htl. cbn [skip_to]. rewrite ltb_append_self. cbn [coeff_scan].
  rewrite startswith_prefix, prefix_append_self.
  unfold bind at 1, get_this. cbn [w_this].
  destruct (weightmap this !! (colourprefix this 0 +:+ "x")) as [w|] eqn:Hw;
    [|reflexivity].
  exfalso. assert (Hsome : is_Some (make_weightmap this !! (colourprefix this 0 +:+ "x")))
    by (rewrite <- Hwm, Hw; eauto).
  apply make_weightmap_is_Some in Hsome as (x & c & _ & Hc & E).
  unfold make_coeff_term, colourprefix in E. rewrite !append_assoc in E.
  apply String.app_inj in E.
  destruct (to_string_channel c Hc) as (a & Ea & _). rewrite Ea in E.
  simpl in E. injection E as _ E. symmetry in E. exact (to_string_not_x x E).
Qed.

(** C2. When every term of the document that begins with a channel
    prefix is one of the coefficient terms of a signature with all its
    positions in [[-num_pixels_squared, num_pixels_squared)], every term
    the prefix scan of [make_coeff_query] visits has an entry in the
    weight map, and the query is built. Without that, the result of the
    lookup is used unchecked: a document holding one term that begins
    with a channel prefix and is no coefficient term drives the function
    into undefined behaviour. *)
Theorem coeff_lookup_always_found (prefix_ : string) (v1 v2 v3 : valueno)
    (this : ImgTerms) (d : Document) :
  ImgTerms_new prefix_ v1 v2 v3 = Some this →
  ((∀ t c, t ∈ doc_terms d → c ∈ channels →
           startswith t (colourprefix this c) = true →
           ∃ sig, sig_in_range num_pixels_squared sig ∧
                  t ∈ make_coeff_terms this sig) →
   (∀ c t, c ∈ channels →
      t ∈ prefix_scan (colourprefix this c)
            (skip_to (colourprefix this c) (termlist d)) →
      is_Some (weightmap this !! t)) ∧
   ∃ q, make_coeff_query {| w_doc := d; w_this := this |}
        = Ret q {| w_doc := d; w_this := this |}) ∧
  make_coeff_query {| w_doc := add_term (colourprefix this 0 +:+ "x") Document_new;
                      w_this := this |} = Undefined.
Proof.
  intros Hnew.
  destruct (ImgTerms_new_fields prefix_ v1 v2 v3)
    as (this' & Hnew' & _ & Hwm & _).
  rewrite Hnew in Hnew'. injection Hnew' as <-.
  split; [|by apply make_coeff_query_unchecked].
  intros Hpre.
  pose proof (indexed_terms_have_weights this d Hwm Hpre) as Hall.
  split; [exact Hall | by apply make_coeff_query_defined].
Qed.

Lemma make_coeff_query_empty (this : ImgTerms) (d : Document) :
  (∀ t c, t ∈ doc_terms d → c ∈ channels →
          startswith t (colourprefix this c) = false) →
  make_coeff_query {| w_doc := d; w_this := this |}
  = Ret Query_empty {| w_doc := d; w_this := this |}.
Proof.
  intros Hno.
  assert (Hchan : ∀ c, c ∈ channels →
            coeff_channel Query_empty c {| w_doc := d; w_this := this |}
            = Ret Query_empty {| w_doc := d; w_this := this |}).
  { intros c Hc. unfold coeff_channel, bind, get_doc, get_this.
    cbn [w_doc w_this]. apply coeff_scan_no_match.
    intros t Ht. apply elem_of_skip_to, elem_of_termlist in Ht. by apply Hno. }
  unfold make_coeff_query, channels. cbn [for_loop]. unfold bind.
  rewrite !Hchan by (apply elem_of_channels; tauto). reflexivity.
Qed.

(** ** The averages query *)

Lemma averages_channel_ok (this : ImgTerms) (d : Document) (query : Query)
    (c : Z) (slot : valueno) (val : double) (acc : RangeAccelerator) (w : double) :
  vector_at (colour_vals this) c = Some slot →
  unserialise_double (get_value slot d) = inr val →
  vector_at (colour_average_accels this) c = Some acc →
  weights_at 0 c = Some w →
  averages_channel query c {| w_doc := d; w_this := this |}
  = Ret (Query_or query (Query_scale_weight (query_for_val_distance acc val) w))
        {| w_doc := d; w_this := this |}.
Proof.
  intros Hslot Hval Hacc Hw.
  unfold averages_channel, bind, get_doc, get_this. cbn [w_doc w_this].
  rewrite Hslot. cbn [deref ret]. rewrite Hval. cbn [ret].
  rewrite Hacc. cbn [deref ret]. rewrite Hw. reflexivity.
Qed.

Lemma averages_channel_network_error (this : ImgTerms) (d : Document)
    (query : Query) (c : Z) (slot : valueno) (msg : string) :
  vector_at (colour_vals this) c = Some slot →
  unserialise_double (get_value slot d) = inl (NetworkError msg) →
  averages_channel query c {| w_doc := d; w_this := this |}
  = Throw (InvalidArgumentError msg) {| w_doc := d; w_this := this |}.
Proof.
  intros Hslot Hval.
  unfold averages_channel, bind, get_doc, get_this. cbn [w_doc w_this].
  rewrite Hslot. cbn [deref ret]. rewrite Hval. reflexivity.
Qed.

Lemma averages_channel_no_result (this : ImgTerms) (d : Document)
    (query : Query) (c : Z) (slot : valueno) (e : Error) :
  vector_at (colour_vals this) c = Some slot →
  unserialise_double (get_value slot d) = inl e →
  ∀ q w', averages_channel query c {| w_doc := d; w_this := this |} ≠ Ret q w'.
Proof.
  intros Hslot Hval q w'.
  unfold averages_channel, bind, get_doc, get_this. cbn [w_doc w_this].
  rewrite Hslot. cbn [deref ret]. rewrite Hval.
  destruct e; discriminate.
Qed.

Lemma read_only_averages_channel (query : Query) (c : Z) :
  read_only (averages_channel query c).
Proof.
  unfold averages_channel. read_only_steps.
  destruct (unserialise_double _) as [[msg | msg | kind msg] | val];
    auto with read_only.
Qed.

(** A loop of read-only rounds returns nothing once one round does not
    return. *)
Lemma for_loop_no_result {A B} (body : A → B → M A) (l : list B) (b : B)
    (w : World) :
  (∀ a b', read_only (body a b')) →
  b ∈ l →
  (∀ a a' w', body a b w ≠ Ret a' w') →
  ∀ a a' w', for_loop body a l w ≠ Ret a' w'.
Proof.
  intros Hro Hb Hfail. induction l as [|b0 l IH]; intros a a' w'.
  - by apply elem_of_nil in Hb.
  - simpl. unfold bind. pose proof (Hro a b0 w) as Hw.
    destruct (body a b0 w) as [a1 w1 | e w1 | ] eqn:E; [|discriminate..].
    subst w1. apply elem_of_cons in Hb as [-> | Hb].
    + exfalso. exact (Hfail a a1 w E).
    + by apply IH.
Qed.

Lemma make_averages_query_no_result (this : ImgTerms) (d : Document)
    (c : Z) (slot : valueno) (e : Error) :
  c ∈ channels →
  vector_at (colour_vals this) c = Some slot →
  unserialise_double (get_value slot d) = inl e →
  ∀ q w', make_averages_query {| w_doc := d; w_this := this |} ≠ Ret q w'.
Proof.
  intros Hc Hslot Hval. unfold make_averages_query.
  apply for_loop_no_result with (b := c).
  - intros a b'. apply read_only_averages_channel.
  - exact Hc.
  - intros a. by apply averages_channel_no_result with slot e.
Qed.

Lemma querySimilar_no_result (this : ImgTerms) (d : Document)
    (c : Z) (slot : valueno) (e : Error) :
  c ∈ channels →
  vector_at (colour_vals this) c = Some slot →
  unserialise_double (get_value slot d) = inl e →
  ∀ q w', querySimilar {| w_doc := d; w_this := this |} ≠ Ret q w'.
Proof.
  intros Hc Hslot Hval q w'.
  pose proof (make_averages_query_no_result this d c slot e Hc Hslot Hval) as Hno.
  unfold querySimilar, bind.
  destruct (make_coeff_query _) as [q1 w1 | e1 w1 | ] eqn:Hq; [|discriminate..].
  pose proof (read_only_make_coeff_query {| w_doc := d; w_this := this |}) as Hro.
  rewrite Hq in Hro. subst w1.
  destruct (make_averages_query _) as [q2 w2 | e2 w2 | ] eqn:Ha; [|discriminate..].
  exfalso. exact (Hno q2 w2 eq_refl).
Qed.

(** The three rounds of [make_averages_query] when every stored average
    decodes. *)
Lemma make_averages_query_run (this : ImgTerms) (d : Document)
    (s0 s1 s2 : valueno) (a0 a1 a2 : RangeAccelerator)
    (val0 val1 val2 : double) :
  colour_vals this = [s0; s1; s2] →
  colour_average_accels this = [a0; a1; a2] →
  unserialise_double (get_value s0 d) = inr val0 →
  unserialise_double (get_value s1 d) = inr val1 →
  unserialise_double (get_value s2 d) = inr val2 →
  make_averages_query {| w_doc := d; w_this := this |}
  = Ret (Query_or
           (Query_or
              (Query_or Query_empty
                 (Query_scale_weight (query_for_val_distance a0 val0) 5.00%Q))
              (Query_scale_weight (query_for_val_distance a1 val1) 19.21%Q))
           (Query_scale_weight (query_for_val_distance a2 val2) 34.37%Q))
        {| w_doc := d; w_this := this |}.
Proof.
  intros Hvals Haccs E0 E1 E2.
  unfold make_averages_query, channels. cbn [for_loop]. unfold bind.
  rewrite (averages_channel_ok this d _ 0 s0 val0 a0 5.00%Q)
    by (rewrite ?Hvals, ?Haccs; done).
  rewrite (averages_channel_ok this d _ 1 s1 val1 a1 19.21%Q)
    by (rewrite ?Hvals, ?Haccs; done).
  rewrite (averages_channel_ok this d _ 2 s2 val2 a2 34.37%Q)
    by (rewrite ?Hvals, ?Haccs; done).
  reflexivity.
Qed.

(** The first channel whose stored average is rejected by the decoder
    decides the outcome: the decoder's message comes back unchanged
    inside an [InvalidArgumentError]. *)
Lemma make_averages_query_first_failure (this : ImgTerms) (d : Document)
    (s0 s1 s2 : valueno) (a0 a1 a2 : RangeAccelerator)
    (c : Z) (slot : valueno) (msg : string) :
  colour_vals this = [s0; s1; s2] →
  colour_average_accels this = [a0; a1; a2] →
  c ∈ channels →
  vector_at (colour_vals this) c = Some slot →
  unserialise_double (get_value slot d) = inl (NetworkError msg) →
  (∀ c' slot', c' ∈ channels → c' < c →
     vector_at (colour_vals this) c' = Some slot' →
     ∃ val, unserialise_double (get_value slot' d) = inr val) →
  make_averages_query {| w_doc := d; w_this := this |}
  = Throw (InvalidArgumentError msg) {| w_doc := d; w_this := this |}.
Proof.
  intros Hvals Haccs Hc Hslot Hval Hearlier.
  unfold make_averages_query, channels. cbn [for_loop]. unfold bind.
  apply elem_of_channels in Hc as [-> | [-> | ->]].
  - by rewrite (averages_channel_network_error this d _ 0 slot msg).
  - destruct (Hearlier 0 s0) as [val0 E0];
      [apply elem_of_channels; tauto | lia | by rewrite Hvals |].
    rewrite (averages_channel_ok this d _ 0 s0 val0 a0 5.00%Q)
      by (rewrite ?Hvals, ?Haccs; done).
    by rewrite (averages_channel_network_error this d _ 1 slot msg).
  - destruct (Hearlier 0 s0) as [val0 E0];
      [apply elem_of_channels; tauto | lia | by rewrite Hvals |].
    destruct (Hearlier 1 s1) as [val1 E1];
      [apply elem_of_channels; tauto | lia | by rewrite Hvals |].
    rewrite (averages_channel_ok this d _ 0 s0 val0 a0 5.00%Q)
      by (rewrite ?Hvals, ?Haccs; done).
    rewrite (averages_channel_ok this d _ 1 s1 val1 a1 19.21%Q)
      by (rewrite ?Hvals, ?Haccs; done).
    by rewrite (averages_channel_network_error this d _ 2 slot msg).
Qed.

(** C5. When the three stored averages decode, the averages query is the
    OR, channel after channel, of the channel's value-distance query
    scaled by [weights[0][c]], the weight of position 0: 5.00 for Y,
    19.21 for I and 34.37 for Q. *)
Theorem averages_scaled_by_position_0_weight (prefix_ : string)
    (v1 v2 v3 : valueno) (this : ImgTerms) (d : Document)
    (val0 val1 val2 : double) :
  ImgTerms_new prefix_ v1 v2 v3 = Some this →
  unserialise_double (get_value v1 d) = inr val0 →
  unserialise_double (get_value v2 d) = inr val1 →
  unserialise_double (get_value v3 d) = inr val2 →
  ∃ a0 a1 a2 w0 w1 w2,
    colour_average_accels this = [a0; a1; a2] ∧
    weights_at 0 0 = Some w0 ∧ weights_at 0 1 = Some w1 ∧
    weights_at 0 2 = Some w2 ∧
    make_averages_query {| w_doc := d; w_this := this |}
    = Ret (Query_or
             (Query_or
                (Query_or Query_empty
                   (Query_scale_weight (query_for_val_distance a0 val0) w0))
                (Query_scale_weight (query_for_val_distance a1 val1) w1))
             (Query_scale_weight (query_for_val_distance a2 val2) w2))
          {| w_doc := d; w_this := this |}.
Proof.
  intros Hnew E0 E1 E2.
  destruct (ImgTerms_new_fields prefix_ v1 v2 v3)
    as (this' & Hnew' & _ & _ & Hvals & Haccs).
  rewrite Hnew in Hnew'. injection Hnew' as <-.
  do 3 eexists. exists 5.00%Q, 19.21%Q, 34.37%Q.
  split; [exact Haccs|]. do 3 (split; [reflexivity|]).
  by apply make_averages_query_run with v1 v2 v3.
Qed.

(** C1, as the code has it. A stored average that the decoder rejects
    with a [NetworkError] makes [make_averages_query] throw an
    [InvalidArgumentError] that carries the decoder's message and nothing
    else, as soon as the channels before it decode; [querySimilar] throws
    the same error when the coefficient query has been built. Whatever
    the decoder throws and whichever channel it is, neither function
    returns a query. *)
Theorem decode_failure_is_invalid_argument (prefix_ : string)
    (v1 v2 v3 : valueno) (this : ImgTerms) (d : Document)
    (c : Z) (slot : valueno) :
  ImgTerms_new prefix_ v1 v2 v3 = Some this →
  c ∈ channels →
  vector_at (colour_vals this) c = Some slot →
  (∀ msg,
     unserialise_double (get_value slot d) = inl (NetworkError msg) →
     (∀ c' slot', c' ∈ channels → c' < c →
        vector_at (colour_vals this) c' = Some slot' →
        ∃ val, unserialise_double (get_value slot' d) = inr val) →
     make_averages_query {| w_doc := d; w_this := this |}
     = Throw (InvalidArgumentError msg) {| w_doc := d; w_this := this |} ∧
     ∀ q, make_coeff_query {| w_doc := d; w_this := this |}
          = Ret q {| w_doc := d; w_this := this |} →
          querySimilar {| w_doc := d; w_this := this |}
          = Throw (InvalidArgumentError msg) {| w_doc := d; w_this := this |}) ∧
  (∀ e,
     unserialise_double (get_value slot d) = inl e →
     ∀ q w', make_averages_query {| w_doc := d; w_this := this |} ≠ Ret q w' ∧
             querySimilar {| w_doc := d; w_this := this |} ≠ Ret q w').
Proof.
  intros Hnew Hc Hslot.
  destruct (ImgTerms_new_fields prefix_ v1 v2 v3)
    as (this' & Hnew' & _ & _ & Hvals & Haccs).
  rewrite Hnew in Hnew'. injection Hnew' as <-.
  split.
  - intros msg Hval Hearlier.
    pose proof (make_averages_query_first_failure this d _ _ _ _ _ _ c slot msg
                  Hvals Haccs Hc Hslot Hval Hearlier) as Havg.
    split; [exact Havg|]. intros q Hq.
    unfold querySimilar, bind. by rewrite Hq, Havg.
  - intros e Hval q w'. split.
    + by apply make_averages_query_no_result with c slot e.
    + by apply querySimilar_no_result with c slot e.
Qed.

(** C10, as the code has it. A document without any term that begins
    with a channel prefix gets the default-constructed coefficient
    query, without any error; [querySimilar] then returns the OR of that
    empty query with the averages query whenever the averages query is
    built, and throws what [make_averages_query] throws otherwise. *)
Theorem no_coefficient_terms_empty_query (this : ImgTerms) (d : Document) :
  (∀ t c, t ∈ doc_terms d → c ∈ channels →
          startswith t (colourprefix this c) = false) →
  make_coeff_query {| w_doc := d; w_this := this |}
  = Ret Query_empty {| w_doc := d; w_this := this |} ∧
  (∀ averages w',
     make_averages_query {| w_doc := d; w_this := this |} = Ret averages w' →
     querySimilar {| w_doc := d; w_this := this |}
     = Ret (Query_or Query_empty averages) w') ∧
  (∀ e w',
     make_averages_query {| w_doc := d; w_this := this |} = Throw e w' →
     querySimilar {| w_doc := d; w_this := this |} = Throw e w').
Proof.
  intros Hno. pose proof (make_coeff_query_empty this d Hno) as Hq.
  split; [exact Hq|].
  split; intros x w' Ha; unfold querySimilar, bind; by rewrite Hq, Ha.
Qed.

End Properties.

(** * The pipeline, run *)

Example scenario_termlist :
  termlist ∘ w_doc <$> scenario_world
  = Some ["IMG0-3"; "IMG00"; "IMG05"; "IMG12"].
Proof. vm_compute. reflexivity. Qed.

Example scenario_values :
  (λ w, get_value 1 (w_doc w) :: get_value 2 (w_doc w)
        :: get_value 3 (w_doc w) :: []) <$> scenario_world
  = Some ["5/10"; "0/10"; "-1/10"].
Proof. vm_compute. reflexivity. Qed.

Example scenario_coeff_query :
  scenario_world ≫= (λ w, returned (make_coeff_query w))
  = Some (Query_or
            (Query_or
               (Query_or
                  (Query_or Query_empty
                     (Query_scale_weight (Query_term "IMG0-3") 0.52%Q))
                  (Query_scale_weight (Query_term "IMG00") 5.00%Q))
               (Query_scale_weight (Query_term "IMG05") 0.30%Q))
            (Query_scale_weight (Query_term "IMG12") 0.44%Q)).
Proof. vm_compute. reflexivity. Qed.

Example scenario_position_out_of_range :
  (this ← @ImgTerms_new small_collaborators "IMG" 1 2 3;
   Some (make_coeff_query
           {| w_doc := add_term "IMG09" Document_new; w_this := this |}))
  = Some Undefined.
Proof. vm_compute. reflexivity. Qed.

Example startswith_examples :
  startswith "IMG05" "IMG0" = true ∧ startswith "IMG05" "IMG1" = false ∧
  startswith "xIMG0" "IMG0" = false ∧ startswith "IMG" "IMG0" = false ∧
  startswith "IMGA0" "IMG0" = false ∧ startswith "" "" = true.
Proof. repeat split. Qed.

(** * The properties on the sample configuration *)




Lemma scenario_indexing_witness :
  ∃ this d', @ImgTerms_new sample_collaborators "IMG" 1 2 3 = Some this ∧
    @AddTerms sample_collaborators scenario_sig
      {| w_doc := Document_new; w_this := this |}
    = Ret tt {| w_doc := d'; w_this := this |} ∧
    doc_terms d' = {[ "IMG00"; "IMG05"; "IMG0-3"; "IMG12" ]} ∪ ∅ ∧
    get_value 1 d' = "5/10" ∧ get_value 2 d' = "0/10" ∧ get_value 3 d' = "-1/10".
Proof.
  destruct (@ImgTerms_new_fields sample_collaborators "IMG" 1 2 3)
    as (this & Hnew & _).
  destruct (@scenario_indexing sample_collaborators "IMG" 1 2 3 this
              Document_new Hnew)
    as (d' & Hrun & _ & Hterms & _ & _ & Hvals).
  exists this, d'. split; [exact Hnew|]. split; [exact Hrun|].
  split; [exact Hterms|]. apply Hvals; discriminate.
Defined.


Lemma only_AddTerms_mutates_witness :
  ∃ this d', @ImgTerms_new sample_collaborators "IMG" 1 2 3 = Some this ∧
    @AddTerms sample_collaborators scenario_sig
      {| w_doc := doc_with_averages; w_this := this |}
    = Ret tt {| w_doc := d'; w_this := this |} ∧
    doc_values d' !! 7%N = doc_values doc_with_averages !! 7%N.
Proof.
  destruct (@ImgTerms_new_fields sample_collaborators "IMG" 1 2 3)
    as (this & Hnew & _).
  destruct (@only_AddTerms_mutates sample_collaborators)
    as (_ & _ & _ & _ & _ & Hadd).
  destruct (Hadd "IMG" 1%N 2%N 3%N this doc_with_averages scenario_sig Hnew)
    as (d' & Hrun & _ & Hframe).
  exists this, d'. split; [exact Hnew|]. split; [exact Hrun|].
  apply Hframe; discriminate.
Defined.

Lemma coeff_lookup_always_found_witness :
  ∃ this q, @ImgTerms_new sample_collaborators "IMG" 1 2 3 = Some this ∧
    sig_in_range 16384 scenario_sig ∧
    make_coeff_query
      {| w_doc := {| doc_terms := make_coeff_terms this scenario_sig;
                     doc_values := ∅ |};
         w_this := this |}
    = Ret q {| w_doc := {| doc_terms := make_coeff_terms this scenario_sig;
                           doc_values := ∅ |};
               w_this := this |}.
Proof.
  destruct (@ImgTerms_new_fields sample_collaborators "IMG" 1 2 3)
    as (this & Hnew & _).
  assert (Hrange : sig_in_range 16384 scenario_sig).
  { intros x. cbn [scenario_sig sig1 sig2 sig3 app].
    rewrite !elem_of_cons, elem_of_nil. lia. }
  destruct (@coeff_lookup_always_found sample_collaborators "IMG" 1 2 3 this
              {| doc_terms := make_coeff_terms this scenario_sig;
                 doc_values := ∅ |} Hnew) as [Hfound _].
  destruct Hfound as [_ [q Hq]].
  - intros t c Ht _ _. exists scenario_sig. split; [exact Hrange | exact Ht].
  - exists this, q. split; [exact Hnew|]. split; [exact Hrange | exact Hq].
Defined.

Lemma averages_scaled_by_position_0_weight_witness :
  ∃ this a0 a1 a2, @ImgTerms_new sample_collaborators "IMG" 1 2 3 = Some this ∧
    @make_averages_query sample_collaborators
      {| w_doc := doc_with_averages; w_this := this |}
    = Ret (Query_or
             (Query_or
                (Query_or Query_empty
                   (Query_scale_weight (Query_val_distance a0 0.5%Q) 5.00%Q))
                (Query_scale_weight (Query_val_distance a1 0.0%Q) 19.21%Q))
             (Query_scale_weight (Query_val_distance a2 (-0.1)%Q) 34.37%Q))
          {| w_doc := doc_with_averages; w_this := this |}.
Proof.
  destruct (@ImgTerms_new_fields sample_collaborators "IMG" 1 2 3)
    as (this & Hnew & _).
  destruct (@averages_scaled_by_position_0_weight sample_collaborators
              "IMG" 1 2 3 this doc_with_averages 0.5%Q 0.0%Q (-0.1)%Q Hnew)
    as (a0 & a1 & a2 & w0 & w1 & w2 & _ & E0 & E1 & E2 & Hrun);
    [reflexivity..|].
  injection E0 as <-. injection E1 as <-. injection E2 as <-.
  exists this, a0, a1, a2. split; [exact Hnew | exact Hrun].
Defined.

Lemma decode_failure_is_invalid_argument_witness :
  ∃ this, @ImgTerms_new sample_collaborators "IMG" 1 2 3 = Some this ∧
    @make_averages_query sample_collaborators
      {| w_doc := doc_without_I; w_this := this |}
    = Throw (InvalidArgumentError "Bad encoded double: insufficient data")
            {| w_doc := doc_without_I; w_this := this |}.
Proof.
  destruct (@ImgTerms_new_fields sample_collaborators "IMG" 1 2 3)
    as (this & Hnew & _ & _ & Hvals & _).
  exists this. split; [exact Hnew|].
  destruct (@decode_failure_is_invalid_argument sample_collaborators
              "IMG" 1 2 3 this doc_without_I 1 2%N Hnew) as [Hthrow _].
  - apply elem_of_channels. tauto.
  - rewrite Hvals. reflexivity.
  - apply (Hthrow "Bad encoded double: insufficient data").
    + reflexivity.
    + intros c' slot' Hc' Hlt. rewrite Hvals.
      apply elem_of_channels in Hc' as [-> | [-> | ->]]; [|lia..].
      intros [= <-]. exists 0.5%Q. reflexivity.
Defined.

Lemma no_coefficient_terms_empty_query_witness :
  ∃ this, @ImgTerms_new sample_collaborators "IMG" 1 2 3 = Some this ∧
    make_coeff_query {| w_doc := doc_with_averages; w_this := this |}
    = Ret Query_empty {| w_doc := doc_with_averages; w_this := this |}.
Proof.
  destruct (@ImgTerms_new_fields sample_collaborators "IMG" 1 2 3)
    as (this & Hnew & _).
  exists this. split; [exact Hnew|].
  refine (proj1 (@no_coefficient_terms_empty_query sample_collaborators
                   this doc_with_averages _)).
  intros t c Ht. cbn in Ht. by apply elem_of_empty in Ht.
Defined.

(** * Where the design document and the code part *)

(** C1, as the design document has it, fails. A document that lacks the
    channel-0 average and a document that lacks the channel-1 average
    make [make_averages_query] throw the very same error, the decoder's
    message inside an [InvalidArgumentError]; nothing in it tells the
    two channels apart. *)
Lemma invalid_argument_names_no_channel :
  (∃ this, @ImgTerms_new sample_collaborators "IMG" 1 2 3 = Some this ∧
     @make_averages_query sample_collaborators
       {| w_doc := doc_without_Y; w_this := this |}
     = Throw (InvalidArgumentError "Bad encoded double: insufficient data")
             {| w_doc := doc_without_Y; w_this := this |} ∧
     @make_averages_query sample_collaborators
       {| w_doc := doc_without_I; w_this := this |}
     = Throw (InvalidArgumentError "Bad encoded double: insufficient data")
             {| w_doc := doc_without_I; w_this := this |}) ∧
  ¬ ∃ channel_of, error_names_channel channel_of.
Proof.
  destruct (@ImgTerms_new_fields sample_collaborators "IMG" 1 2 3)
    as (this & Hnew & _ & _ & Hvals & Haccs).
  assert (HY : @make_averages_query sample_collaborators
                 {| w_doc := doc_without_Y; w_this := this |}
               = Throw (InvalidArgumentError "Bad encoded double: insufficient data")
                       {| w_doc := doc_without_Y; w_this := this |}).
  { apply (@make_averages_query_first_failure sample_collaborators this
             doc_without_Y _ _ _ _ _ _ 0 1%N _ Hvals Haccs).
    - apply elem_of_channels. tauto.
    - rewrite Hvals. reflexivity.
    - reflexivity.
    - intros c' slot' Hc' Hlt.
      apply elem_of_channels in Hc' as [-> | [-> | ->]]; lia. }
  assert (HI : @make_averages_query sample_collaborators
                 {| w_doc := doc_without_I; w_this := this |}
               = Throw (InvalidArgumentError "Bad encoded double: insufficient data")
                       {| w_doc := doc_without_I; w_this := this |}).
  { apply (@make_averages_query_first_failure sample_collaborators this
             doc_without_I _ _ _ _ _ _ 1 2%N _ Hvals Haccs).
    - apply elem_of_channels. tauto.
    - rewrite Hvals. reflexivity.
    - reflexivity.
    - intros c' slot' Hc' Hlt. rewrite Hvals.
      apply elem_of_channels in Hc' as [-> | [-> | ->]]; [|lia..].
      intros [= <-]. exists 0.5%Q. reflexivity. }
  split; [by exists this|].
  intros [channel_of Hclaim].
  destruct (Hclaim sample_collaborators "IMG" 1%N 2%N 3%N this doc_without_Y
              0 1%N "Bad encoded double: insufficient data" Hnew)
    as (e0 & E0 & _ & C0).
  { apply elem_of_channels. tauto. }
  { rewrite Hvals. reflexivity. }
  { reflexivity. }
  { intros c' slot' Hc' Hlt.
    apply elem_of_channels in Hc' as [-> | [-> | ->]]; lia. }
  destruct (Hclaim sample_collaborators "IMG" 1%N 2%N 3%N this doc_without_I
              1 2%N "Bad encoded double: insufficient data" Hnew)
    as (e1 & E1 & _ & C1).
  { apply elem_of_channels. tauto. }
  { rewrite Hvals. reflexivity. }
  { reflexivity. }
  { intros c' slot' Hc' Hlt. rewrite Hvals.
    apply elem_of_channels in Hc' as [-> | [-> | ->]]; [|lia..].
    intros [= <-]. exists 0.5%Q. reflexivity. }
  rewrite HY in E0. rewrite HI in E1.
  injection E0 as <-. injection E1 as <-. congruence.
Qed.


(** C10, as the design document has it, fails. A freshly created
    document has no term at all, and none of the three averages either:
    the coefficient query is the empty query, and [querySimilar] throws
    the [InvalidArgumentError] of [make_averages_query]. *)
Lemma querySimilar_fails_on_fresh_document :
  (∃ this, @ImgTerms_new sample_collaborators "IMG" 1 2 3 = Some this ∧
     (∀ t c, t ∈ doc_terms Document_new → c ∈ channels →
             startswith t (colourprefix this c) = false) ∧
     @querySimilar sample_collaborators
       {| w_doc := Document_new; w_this := this |}
     = Throw (InvalidArgumentError "Bad encoded double: insufficient data")
             {| w_doc := Document_new; w_this := this |}) ∧
  ¬ querySimilar_succeeds_without_terms.
Proof.
  destruct (@ImgTerms_new_fields sample_collaborators "IMG" 1 2 3)
    as (this & Hnew & _ & _ & Hvals & Haccs).
  assert (Hno : ∀ t c, t ∈ doc_terms Document_new → c ∈ channels →
                       startswith t (colourprefix this c) = false).
  { intros t c Ht. cbn in Ht. by apply elem_of_empty in Ht. }
  split.
  - exists this. split; [exact Hnew|]. split; [exact Hno|].
    unfold querySimilar, bind.
    rewrite (@make_coeff_query_empty this Document_new Hno).
    rewrite (@make_averages_query_first_failure sample_collaborators this
               Document_new _ _ _ _ _ _ 0 1%N
               "Bad encoded double: insufficient data" Hvals Haccs);
      [reflexivity | apply elem_of_channels; tauto | by rewrite Hvals
      | reflexivity | ].
    intros c' slot' Hc' Hlt.
    apply elem_of_channels in Hc' as [-> | [-> | ->]]; lia.
  - intros Hclaim.
    destruct (Hclaim sample_collaborators "IMG" 1%N 2%N 3%N this Document_new
                Hnew Hno) as (q & w' & Hq).
    refine (@querySimilar_no_result sample_collaborators this Document_new
              0 1%N (NetworkError "Bad encoded double: insufficient data")
              _ _ _ q w' Hq).
    + apply elem_of_channels. tauto.
    + rewrite Hvals. reflexivity.
    + reflexivity.
Qed.

(** * Further properties of the code *)

(** ** The order of terms *)

Lemma prefix_iff_append (p t : string) :
  String.prefix p t = true ↔ ∃ rest, t = p +:+ rest.
Proof.
  split.
  - revert t. induction p as [|a p IH]; intros t Hp; [by exists t|].
    destruct t as [|b t]; [discriminate Hp|]. simpl in Hp.
    destruct (ascii_dec a b) as [-> | ]; [|discriminate Hp].
    destruct (IH t Hp) as [rest ->]. by exists rest.
  - intros [rest ->]. apply prefix_append_self.
Qed.

Lemma ascii_compare_le_trans (a b c : ascii) :
  Ascii.compare a b ≠ Gt → Ascii.compare b c ≠ Gt → Ascii.compare a c ≠ Gt.
Proof. unfold Ascii.compare. rewrite !N.compare_gt_iff. lia. Qed.

Lemma ascii_compare_le_antisym (a b : ascii) :
  Ascii.compare a b ≠ Gt → Ascii.compare b a ≠ Gt → a = b.
Proof.
  intros Hab Hba. apply Ascii.compare_eq_iff.
  rewrite Ascii.compare_antisym in Hba.
  destruct (Ascii.compare a b); [reflexivity | by destruct Hba | by destruct Hab].
Qed.

Lemma string_le_compare (s t : string) :
  string_le s t ↔ String.compare s t ≠ Gt.
Proof.
  unfold string_le, String.leb.
  destruct (String.compare s t); split; intros Hx; done.
Qed.

Lemma string_le_cons (a b : ascii) (s t : string) :
  string_le (String a s) (String b t) ↔
  Ascii.compare a b = Lt ∨ (a = b ∧ string_le s t).
Proof.
  rewrite !string_le_compare. simpl.
  destruct (Ascii.compare a b) eqn:E.
  - apply Ascii.compare_eq_iff in E as ->. split; [by right | by intros [? | [_ ?]]].
  - split; [by left | done].
  - split; [done|]. intros [? | [-> _]]; [done|].
    by rewrite ascii_compare_refl in E.
Qed.

Global Instance string_le_trans : Transitive string_le.
Proof.
  intros s. induction s as [|a s IH]; intros t u Hst Htu.
  - apply string_le_compare. by destruct u.
  - destruct t as [|b t]; [by apply string_le_compare in Hst|].
    destruct u as [|c u]; [by apply string_le_compare in Htu|].
    apply string_le_cons in Hst, Htu. apply string_le_cons.
    destruct Hst as [Hab | [-> Hst]], Htu as [Hbc | [-> Htu]].
    + left. unfold Ascii.compare in *. rewrite N.compare_lt_iff in *. lia.
    + by left.
    + by left.
    + right. split; [done | by apply IH with t].
Qed.

Global Instance string_le_total : Total string_le.
Proof. intros s t. apply String.leb_total. Qed.

Global Instance string_le_antisym : AntiSymm eq string_le.
Proof. intros s t. apply String.leb_antisym. Qed.

Lemma ltb_false_string_le (t p : string) :
  String.ltb t p = false ↔ string_le p t.
Proof.
  rewrite string_le_compare. unfold String.ltb.
  rewrite (String.compare_antisym p t).
  destruct (String.compare t p); simpl; split; intros Hx; done.
Qed.

(** A string that sorts before [p] does not begin with [p]. *)
Lemma ltb_not_startswith (t p : string) :
  String.ltb t p = true → startswith t p = false.
Proof.
  intros Hlt. rewrite startswith_prefix.
  destruct (String.prefix p t) eqn:Hp; [|reflexivity].
  apply prefix_iff_append in Hp as [rest ->].
  by rewrite ltb_append_self in Hlt.
Qed.

(** The strings that begin with [p] form an interval that starts at
    [p]. *)
Lemma startswith_convex (p t u : string) :
  string_le p t → string_le t u → startswith u p = true →
  startswith t p = true.
Proof.
  rewrite !startswith_prefix. revert t u.
  induction p as [|a p IH]; intros t u Hpt Htu Hu; [by destruct t|].
  destruct u as [|c u]; [discriminate Hu|]. simpl in Hu.
  destruct (ascii_dec a c) as [<- | ]; [|discriminate Hu].
  destruct t as [|b t]; [by apply string_le_compare in Hpt|].
  apply string_le_cons in Hpt, Htu.
  assert (a = b ∧ string_le p t ∧ string_le t u) as (<- & Hpt' & Htu').
  { destruct Hpt as [Hab | [-> Hpt]], Htu as [Hba | [E Htu]]; try done.
    - exfalso. unfold Ascii.compare in *. rewrite N.compare_lt_iff in *. lia.
    - subst b. by rewrite ascii_compare_refl in Hab.
    - by rewrite ascii_compare_refl in Hba. }
  simpl. destruct (ascii_dec a a); [|done]. by apply IH with u.
Qed.

(** X1. [startswith] is the prefix test: [s.find(start) == 0] holds
    exactly when [s] is [start] followed by something, the empty [start]
    included; an occurrence of [start] further inside [s] does not
    count. *)
Theorem startswith_iff_begins (s start : string) :
  startswith s start = true ↔ ∃ rest, s = start +:+ rest.
Proof. rewrite startswith_prefix. apply prefix_iff_append. Qed.

(** ** The prefix scan *)

Lemma termlist_sorted (d : Document) : StronglySorted string_le (termlist d).
Proof. unfold termlist. apply StronglySorted_merge_sort; apply _. Qed.

Lemma termlist_NoDup (d : Document) : NoDup (termlist d).
Proof.
  unfold termlist. rewrite merge_sort_Permutation. apply NoDup_elements.
Qed.

Lemma skip_to_split (tname : string) (it : list string) :
  ∃ skipped, it = skipped ++ skip_to tname it ∧
             Forall (λ t, String.ltb t tname = true) skipped.
Proof.
  induction it as [|t it (sk & E & Hsk)]; [by exists []|]. simpl.
  destruct (String.ltb t tname) eqn:Hlt.
  - exists (t :: sk). split; [simpl; by rewrite <- E | by constructor].
  - by exists [].
Qed.

Lemma skip_to_lower_bound (tname : string) (it : list string) :
  StronglySorted string_le it →
  Forall (string_le tname) (skip_to tname it).
Proof.
  induction 1 as [|t it Hsorted IH Hall]; simpl; [constructor|].
  destruct (String.ltb t tname) eqn:Hlt; [exact IH|].
  apply ltb_false_string_le in Hlt. constructor; [exact Hlt|].
  eapply Forall_impl; [exact Hall|]. intros u Htu. by transitivity t.
Qed.

Lemma filter_none {A} (P : A → Prop) `{∀ x, Decision (P x)} (l : list A) :
  Forall (λ x, ¬ P x) l → filter P l = [].
Proof.
  induction 1 as [|x l Hx Hl IH]; [reflexivity|].
  by rewrite filter_cons_False.
Qed.

Lemma StronglySorted_filter {A} (R : relation A) (P : A → Prop)
    `{∀ x, Decision (P x)} (l : list A) :
  StronglySorted R l → StronglySorted R (filter P l).
Proof.
  induction 1 as [|x l Hsorted IH Hall]; [constructor|].
  destruct (decide (P x)) as [Hx | Hx].
  - rewrite filter_cons_True by done. constructor; [exact IH|].
    apply Forall_forall. intros u Hu. apply list_elem_of_filter in Hu as [_ Hu].
    rewrite Forall_forall in Hall. by apply Hall.
  - by rewrite filter_cons_False.
Qed.

Lemma prefix_scan_filter (p : string) (it : list string) :
  StronglySorted string_le it → Forall (string_le p) it →
  prefix_scan p it = filter (λ t, startswith t p = true) it.
Proof.
  induction 1 as [|t it Hsorted IH Hall]; intros Hlow; [reflexivity|].
  apply Forall_cons in Hlow as [Hpt Hlow]. simpl.
  destruct (startswith t p) eqn:Ht.
  - rewrite filter_cons_True by done. f_equal. by apply IH.
  - rewrite filter_cons_False by (by rewrite Ht).
    symmetry. apply filter_none.
    eapply Forall_impl; [exact Hall|]. intros u Htu Hu. cbn in Hu.
    rewrite (startswith_convex p t u Hpt Htu Hu) in Ht. discriminate Ht.
Qed.

Lemma prefix_scan_skip_to (p : string) (d : Document) :
  prefix_scan p (skip_to p (termlist d))
  = filter (λ t, startswith t p = true) (termlist d).
Proof.
  pose proof (termlist_sorted d) as Hsorted.
  destruct (skip_to_split p (termlist d)) as (sk & Hsplit & Hsk).
  rewrite prefix_scan_filter.
  - rewrite Hsplit at 2. rewrite filter_app, (filter_none _ sk); [reflexivity|].
    eapply Forall_impl; [exact Hsk|]. intros t Hlt Ht. cbn in Ht.
    by rewrite (ltb_not_startswith t p Hlt) in Ht.
  - rewrite Hsplit in Hsorted. by apply StronglySorted_app_1_r in Hsorted.
  - by apply skip_to_lower_bound.
Qed.

(** X4. Skipping to [p] and then walking on while the terms begin with
    [p] visits exactly the terms of the document that begin with [p],
    each once and in increasing order: no such term lies before the
    point the iterator skips to, and none lies behind the first term
    that does not begin with [p]. *)
Theorem prefix_scan_finds_all (p : string) (d : Document) :
  prefix_scan p (skip_to p (termlist d))
  = filter (λ t, startswith t p = true) (termlist d) ∧
  NoDup (prefix_scan p (skip_to p (termlist d))) ∧
  StronglySorted string_le (prefix_scan p (skip_to p (termlist d))) ∧
  ∀ t, t ∈ prefix_scan p (skip_to p (termlist d)) ↔
       t ∈ doc_terms d ∧ ∃ rest, t = p +:+ rest.
Proof.
  rewrite prefix_scan_skip_to. split; [reflexivity|]. split; [|split].
  - apply NoDup_filter, termlist_NoDup.
  - apply StronglySorted_filter, termlist_sorted.
  - intros t.
    rewrite list_elem_of_filter, elem_of_termlist, startswith_prefix,
      prefix_iff_append.
    tauto.
Qed.

(** ** The coefficient query, in full *)

Lemma weights_of_app (wm : gmap string double) (l1 l2 : list string) :
  weights_of wm (l1 ++ l2)
  = match weights_of wm l1, weights_of wm l2 with
    | Some tws1, Some tws2 => Some (tws1 ++ tws2)
    | _, _ => None
    end.
Proof.
  induction l1 as [|t l1 IH]; simpl.
  - by destruct (weights_of wm l2).
  - rewrite IH. destruct (wm !! t); [|reflexivity].
    destruct (weights_of wm l1), (weights_of wm l2); reflexivity.
Qed.

Lemma weights_of_None (wm : gmap string double) (ts : list string) :
  weights_of wm ts = None ↔ ∃ t, t ∈ ts ∧ wm !! t = None.
Proof.
  induction ts as [|t ts IH]; simpl.
  - split; [done|]. intros (t & Ht & _). by apply elem_of_nil in Ht.
  - destruct (wm !! t) as [w|] eqn:Hw.
    + destruct (weights_of wm ts) as [tws|].
      * split; [done|]. intros (u & Hu & Hnone).
        apply elem_of_cons in Hu as [-> | Hu]; [congruence|].
        assert (Hex : ∃ t0, t0 ∈ ts ∧ wm !! t0 = None) by eauto.
        apply IH in Hex. discriminate Hex.
      * split; [|done]. intros _.
        destruct (proj1 IH eq_refl) as (u & Hu & Hnone).
        exists u. split; [by right | done].
    + split; [|done]. intros _. exists t. split; [by left | done].
Qed.

Lemma elem_of_weights_of (wm : gmap string double) (ts : list string)
    (tws : list (string * double)) :
  weights_of wm ts = Some tws →
  tws.*1 = ts ∧ ∀ t w, (t, w) ∈ tws ↔ t ∈ ts ∧ wm !! t = Some w.
Proof.
  revert tws. induction ts as [|t ts IH]; simpl; intros tws E.
  - injection E as <-. split; [reflexivity|]. intros t w.
    rewrite !elem_of_nil. tauto.
  - destruct (wm !! t) as [w0|] eqn:Hw; [|discriminate E].
    destruct (weights_of wm ts) as [tws'|]; [|discriminate E].
    injection E as <-. destruct (IH tws' eq_refl) as [Hfst Hin].
    split; [by rewrite fmap_cons, Hfst|]. intros u w.
    rewrite !elem_of_cons, Hin. split.
    + intros [[= -> ->] | [Hu Hw']]; [by split; [left|] | by split; [right|]].
    + intros [[-> | Hu] Hw']; [left; congruence | by right].
Qed.

Lemma coeff_scan_run (this : ImgTerms) (d : Document) (cprefix : string)
    (it : list string) (query : Query) :
  coeff_scan cprefix it query {| w_doc := d; w_this := this |}
  = match weights_of (weightmap this) (prefix_scan cprefix it) with
    | Some tws => Ret (weighted_or query tws) {| w_doc := d; w_this := this |}
    | None => Undefined
    end.
Proof.
  revert query. induction it as [|t it IH]; intros query; simpl; [reflexivity|].
  destruct (startswith t cprefix); [|reflexivity]. simpl.
  unfold bind, get_this. cbn [w_this].
  destruct (weightmap this !! t) as [w|]; [|reflexivity].
  cbn [deref ret]. rewrite IH.
  by destruct (weights_of (weightmap this) (prefix_scan cprefix it)).
Qed.

Lemma coeff_loop_run (this : ImgTerms) (d : Document) (cs : list Z)
    (query : Query) :
  for_loop coeff_channel query cs {| w_doc := d; w_this := this |}
  = match weights_of (weightmap this)
            (c ← cs; filter (λ t, startswith t (colourprefix this c) = true)
                            (termlist d)) with
    | Some tws => Ret (weighted_or query tws) {| w_doc := d; w_this := this |}
    | None => Undefined
    end.
Proof.
  revert query. induction cs as [|c cs IH]; intros query; [reflexivity|].
  cbn [for_loop]. rewrite bind_cons, weights_of_app.
  unfold bind at 1, coeff_channel, bind, get_doc, get_this. cbn [w_doc w_this].
  rewrite coeff_scan_run, prefix_scan_skip_to.
  destruct (weights_of (weightmap this) (filter _ (termlist d))) as [tws1|];
    [|reflexivity].
  rewrite IH. destruct (weights_of (weightmap this) (cs ≫= _)) as [tws2|];
    [|reflexivity].
  unfold weighted_or. by rewrite foldl_app.
Qed.

(** X5. The coefficient query is decided by the document's terms that
    begin with a channel prefix. When each of them has an entry in the
    weight map, the result is the empty query OR-ed, channel after
    channel and in term order, with the single-term query of each of
    them scaled by its entry; when one of them has none, the behaviour
    is undefined. No other outcome exists: the function never throws. *)
Theorem make_coeff_query_in_full (this : ImgTerms) (d : Document) :
  make_coeff_query {| w_doc := d; w_this := this |}
  = match weights_of (weightmap this) (coeff_matches this d) with
    | Some tws =>
        Ret (weighted_or Query_empty tws) {| w_doc := d; w_this := this |}
    | None => Undefined
    end.
Proof. apply coeff_loop_run. Qed.

Lemma elem_of_coeff_matches (this : ImgTerms) (d : Document) (t : string) :
  t ∈ coeff_matches this d ↔
  t ∈ doc_terms d ∧ ∃ c, c ∈ channels ∧ startswith t (colourprefix this c) = true.
Proof.
  unfold coeff_matches. rewrite list_elem_of_bind. split.
  - intros (c & Hin & Hc). apply list_elem_of_filter in Hin as [Hstart Hin].
    apply elem_of_termlist in Hin. eauto.
  - intros (Hin & c & Hc & Hstart). exists c. split; [|exact Hc].
    apply list_elem_of_filter. split; [exact Hstart | by apply elem_of_termlist].
Qed.

(** A string begins with the prefix of one channel at most. *)
Lemma channel_prefix_unique (this : ImgTerms) (t : string) (c1 c2 : Z) :
  c1 ∈ channels → c2 ∈ channels →
  startswith t (colourprefix this c1) = true →
  startswith t (colourprefix this c2) = true → c1 = c2.
Proof.
  intros H1 H2. rewrite !startswith_prefix, !prefix_iff_append.
  intros [r1 ->] [r2 E]. unfold colourprefix in E.
  rewrite !append_assoc in E. apply String.app_inj in E.
  destruct (to_string_channel c1 H1) as (a1 & E1 & _).
  destruct (to_string_channel c2 H2) as (a2 & E2 & _).
  rewrite E1, E2 in E. simpl in E. injection E as E _.
  apply to_string_inj. congruence.
Qed.

Lemma NoDup_coeff_matches (this : ImgTerms) (d : Document) :
  NoDup (coeff_matches this d).
Proof.
  unfold coeff_matches. apply NoDup_bind.
  - intros c1 c2 t H1 H2 Hin1 Hin2.
    apply list_elem_of_filter in Hin1 as [Hs1 _].
    apply list_elem_of_filter in Hin2 as [Hs2 _].
    by apply channel_prefix_unique with this t.
  - intros c _. apply NoDup_filter, termlist_NoDup.
  - unfold channels. repeat constructor;
      rewrite ?elem_of_cons, ?elem_of_nil; intros E;
      repeat destruct E as [E | E]; try discriminate; done.
Qed.

(** X6. No term of the document enters the coefficient query twice: the
    three prefix scans visit pairwise different terms, since a term
    begins with the prefix of one channel at most. *)
Theorem coeff_matches_NoDup (this : ImgTerms) (d : Document) :
  NoDup (coeff_matches this d) ∧
  ∀ t, t ∈ coeff_matches this d ↔
       t ∈ doc_terms d ∧
       ∃ c, c ∈ channels ∧ startswith t (colourprefix this c) = true.
Proof.
  split; [apply NoDup_coeff_matches | intros t; apply elem_of_coeff_matches].
Qed.

Lemma filter_termlist_add_term (P : string → Prop) `{∀ t, Decision (P t)}
    (t : string) (d : Document) :
  ¬ P t → filter P (termlist (add_term t d)) = filter P (termlist d).
Proof.
  intros Ht. destruct (decide (t ∈ doc_terms d)) as [Hin | Hnotin].
  - unfold termlist, add_term. cbn [doc_terms].
    replace ({[t]} ∪ doc_terms d) with (doc_terms d); [reflexivity|].
    apply set_eq. intros u. rewrite elem_of_union, elem_of_singleton.
    split; [by right | by intros [-> | ?]].
  - apply (StronglySorted_unique string_le).
    + apply StronglySorted_filter, termlist_sorted.
    + apply StronglySorted_filter, termlist_sorted.
    + unfold termlist, add_term. cbn [doc_terms].
      rewrite !merge_sort_Permutation.
      rewrite (elements_union_singleton _ _ Hnotin).
      by rewrite filter_cons_False.
Qed.

Lemma coeff_matches_add_term (this : ImgTerms) (d : Document) (t : string) :
  (∀ c, c ∈ channels → startswith t (colourprefix this c) = false) →
  coeff_matches this (add_term t d) = coeff_matches this d.
Proof.
  intros Hno. unfold coeff_matches, channels. rewrite !bind_cons.
  rewrite !filter_termlist_add_term; [reflexivity|..];
    rewrite Hno; [done | | done | | done | ]; apply elem_of_channels; tauto.
Qed.

(** X7. Terms that begin with no channel prefix, and stored values, are
    invisible to the coefficient query: adding such a term to the
    document, or setting any value slot, leaves the outcome of
    [make_coeff_query] as it was. *)
Theorem make_coeff_query_ignores_other_terms (this : ImgTerms) (d : Document)
    (t : string) :
  (∀ c, c ∈ channels → startswith t (colourprefix this c) = false) →
  coeff_matches this (add_term t d) = coeff_matches this d ∧
  returned (make_coeff_query {| w_doc := add_term t d; w_this := this |})
  = returned (make_coeff_query {| w_doc := d; w_this := this |}) ∧
  ∀ slot v,
    returned (make_coeff_query {| w_doc := add_value slot v d; w_this := this |})
    = returned (make_coeff_query {| w_doc := d; w_this := this |}).
Proof.
  intros Hno. pose proof (coeff_matches_add_term this d t Hno) as E.
  split; [exact E|]. unfold make_coeff_query. rewrite !coeff_loop_run.
  fold (coeff_matches this (add_term t d)). fold (coeff_matches this d).
  rewrite E. split.
  - by destruct (weights_of _ _).
  - intros slot v. rewrite coeff_loop_run.
    change (termlist (add_value slot v d)) with (termlist d).
    fold (coeff_matches this d).
    by destruct (weights_of _ _).
Qed.

(** ** Terms and the weight map *)

(** X2. A coefficient term determines its position and its channel, as
    long as the channel is one of 0, 1, 2: the channel is the single
    digit behind the prefix. With channel numbers of more than one digit
    that is lost: position 23 of channel 1 and position 3 of channel 12
    would get the same term. *)
Theorem make_coeff_term_decodes (this : ImgTerms) :
  (∀ x x' c c', c ∈ channels → c' ∈ channels →
     make_coeff_term this x c = make_coeff_term this x' c' → x = x' ∧ c = c') ∧
  make_coeff_term this 23 1 = make_coeff_term this 3 12.
Proof.
  split; [intros x x' c c'; apply make_coeff_term_inj|].
  unfold make_coeff_term, colourprefix. by rewrite !append_assoc.
Qed.

Section FurtherProperties.
Context `{Collaborators}.

Lemma foldl_insert_size {A} (k : A → string) (v : A → double) (l : list A) :
  NoDup l →
  (∀ q1 q2, q1 ∈ l → q2 ∈ l → k q1 = k q2 → q1 = q2) →
  size (foldl (λ wm q, <[k q := v q]> wm) (∅ : gmap string double) l)
  = length l.
Proof.
  induction l as [|q l IH] using rev_ind; intros Hnodup Hinj.
  - apply map_size_empty.
  - apply NoDup_app in Hnodup as (Hl & Hdisj & _).
    rewrite foldl_app, length_app. cbn [foldl length].
    rewrite map_size_insert_None.
    + rewrite IH; [lia | exact Hl |].
      intros q1 q2 H1 H2. apply Hinj; apply elem_of_app; by left.
    + apply eq_None_not_Some. intros Hsome.
      apply foldl_insert_is_Some in Hsome as [Hsome | (q' & Hq' & E)].
      * rewrite lookup_empty in Hsome. by destruct Hsome.
      * apply Hinj in E.
        -- subst q'. apply (Hdisj q Hq'). by apply list_elem_of_singleton.
        -- apply elem_of_app. by left.
        -- apply elem_of_app. right. by apply list_elem_of_singleton.
Qed.

Lemma length_weightmap_pairs :
  length weightmap_pairs = (3 * Z.to_nat (2 * num_pixels_squared))%nat.
Proof.
  unfold weightmap_pairs, positions.
  rewrite <- (length_seqZ (- num_pixels_squared) (2 * num_pixels_squared)).
  induction (seqZ _ _) as [|x xs IH]; [reflexivity|].
  rewrite bind_cons, length_app, IH. cbn. lia.
Qed.

(** X3. The weight map holds one entry per pair of a position and a
    channel and nothing else: [6 * num_pixels_squared] entries, no
    assignment of the construction loop overwriting another. It is empty
    exactly when [num_pixels_squared] is not positive. *)
Theorem weightmap_size (this : ImgTerms) :
  size (make_weightmap this) = (3 * Z.to_nat (2 * num_pixels_squared))%nat ∧
  (make_weightmap this = ∅ ↔ num_pixels_squared ≤ 0).
Proof.
  assert (Hsize : size (make_weightmap this)
                  = (3 * Z.to_nat (2 * num_pixels_squared))%nat).
  { rewrite make_weightmap_pairs, <- length_weightmap_pairs.
    apply (foldl_insert_size (λ p, make_coeff_term this p.1 p.2)
                             (λ p, find_weight p.1 p.2)).
    - apply NoDup_weightmap_pairs.
    - intros [x c] [x' c'] Hin Hin' E. cbn in E.
      apply elem_of_weightmap_pairs in Hin as [_ Hc].
      apply elem_of_weightmap_pairs in Hin' as [_ Hc'].
      apply make_coeff_term_inj in E as [-> ->]; done. }
  split; [exact Hsize|].
  rewrite <- map_size_empty_iff, Hsize. lia.
Qed.

(** X8. For a constructed object [make_coeff_query] returns a query
    exactly when every term of the document that begins with a channel
    prefix is the coefficient term of a position in
    [[-num_pixels_squared, num_pixels_squared)]; in every other case its
    behaviour is undefined. A term that is just the channel prefix, or
    that carries a position outside the range, is enough. *)
Theorem make_coeff_query_defined_iff (prefix_ : string) (v1 v2 v3 : valueno)
    (this : ImgTerms) (d : Document) :
  ImgTerms_new prefix_ v1 v2 v3 = Some this →
  ((∃ q, make_coeff_query {| w_doc := d; w_this := this |}
         = Ret q {| w_doc := d; w_this := this |}) ↔
   (∀ t, t ∈ doc_terms d →
      (∃ c, c ∈ channels ∧ startswith t (colourprefix this c) = true) →
      ∃ x c, - num_pixels_squared ≤ x < num_pixels_squared ∧ c ∈ channels ∧
             t = make_coeff_term this x c)) ∧
  (make_coeff_query {| w_doc := d; w_this := this |} = Undefined ↔
   (∃ t, t ∈ doc_terms d ∧
      (∃ c, c ∈ channels ∧ startswith t (colourprefix this c) = true) ∧
      ∀ x c, - num_pixels_squared ≤ x < num_pixels_squared → c ∈ channels →
             t ≠ make_coeff_term this x c)).
Proof.
  intros Hnew.
  destruct (ImgTerms_new_fields prefix_ v1 v2 v3)
    as (this' & Hnew' & _ & Hwm & _).
  rewrite Hnew in Hnew'. injection Hnew' as <-.
  unfold make_coeff_query. rewrite coeff_loop_run.
  fold (coeff_matches this d).
  destruct (weights_of (weightmap this) (coeff_matches this d)) as [tws|] eqn:E.
  - assert (Hall : ∀ t, t ∈ doc_terms d →
              (∃ c, c ∈ channels ∧ startswith t (colourprefix this c) = true) →
              ∃ x c, - num_pixels_squared ≤ x < num_pixels_squared ∧
                     c ∈ channels ∧ t = make_coeff_term this x c).
    { intros t Hin Hc. apply make_weightmap_is_Some. rewrite <- Hwm.
      destruct (weightmap this !! t) eqn:Hw; [eauto|].
      assert (Hnone : weights_of (weightmap this) (coeff_matches this d) = None).
      { apply weights_of_None. exists t. split; [|exact Hw].
        by apply elem_of_coeff_matches. }
      congruence. }
    split; [split; [done | eauto]|]. split; [discriminate|].
    intros (t & Hin & Hc & Hno). destruct (Hall t Hin Hc) as (x & c & Hx & Hcc & ->).
    by destruct (Hno x c).
  - apply weights_of_None in E as (t & Hin & Hw).
    apply elem_of_coeff_matches in Hin as [Hin Hc].
    assert (Hno : ∀ x c, - num_pixels_squared ≤ x < num_pixels_squared →
                         c ∈ channels → t ≠ make_coeff_term this x c).
    { intros x c Hx Hcc ->. rewrite Hwm, make_weightmap_lookup in Hw; done. }
    split; [split|split; [eauto | done]].
    + intros [q Hq]. discriminate Hq.
    + intros Hall. destruct (Hall t Hin Hc) as (x & c & Hx & Hcc & E).
      by destruct (Hno x c).
Qed.

(** X9. The terms an accelerator forms from its prefix and the
    coefficient terms live apart: no string that begins with the prefix
    of one of the three accelerators begins with a channel prefix, and
    no coefficient term begins with an accelerator prefix. *)
Theorem accelerator_terms_apart (prefix_ : string) (v1 v2 v3 : valueno)
    (this : ImgTerms) (acc : RangeAccelerator) (c : Z) :
  ImgTerms_new prefix_ v1 v2 v3 = Some this →
  acc ∈ colour_average_accels this → c ∈ channels →
  (∀ rest, startswith (ra_prefix acc +:+ rest) (colourprefix this c) = false) ∧
  (∀ x, startswith (make_coeff_term this x c) (ra_prefix acc) = false).
Proof.
  intros Hnew Hacc Hc.
  destruct (ImgTerms_new_fields prefix_ v1 v2 v3)
    as (this' & Hnew' & Hpre & _ & _ & Haccs).
  rewrite Hnew in Hnew'. injection Hnew' as <-.
  rewrite Haccs in Hacc. unfold make_coeff_term, colourprefix. rewrite Hpre.
  split; [intros rest | intros x]; rewrite startswith_prefix;
    repeat (apply elem_of_cons in Hacc as [-> | Hacc]);
    try (by apply elem_of_nil in Hacc);
    cbn [ra_prefix]; rewrite !append_assoc, prefix_append;
    apply elem_of_channels in Hc as [-> | [-> | ->]]; reflexivity.
Qed.

(** ** The terms of a signature, counted *)

Lemma add_coeff_terms_list (this : ImgTerms) (s : list Z) (c : Z)
    (r : gset string) :
  add_coeff_terms this s c r
  = list_to_set ((λ x, make_coeff_term this x c) <$> s) ∪ r.
Proof.
  apply set_eq. intros t.
  rewrite elem_of_add_coeff_terms, elem_of_union, elem_of_list_to_set,
    list_elem_of_fmap.
  split.
  - intros [Hr | (x & Hx & ->)]; [by right | left; by exists x].
  - intros [(x & -> & Hx) | Hr]; [right; by exists x | by left].
Qed.

Lemma make_coeff_terms_list (this : ImgTerms) (sig : ImgSig) :
  make_coeff_terms this sig
  = list_to_set (((λ x, make_coeff_term this x 0) <$> sig1 sig)
                 ++ ((λ x, make_coeff_term this x 1) <$> sig2 sig)
                 ++ ((λ x, make_coeff_term this x 2) <$> sig3 sig)).
Proof.
  unfold make_coeff_terms. rewrite !add_coeff_terms_list, !list_to_set_app_L.
  apply set_eq. intros t. rewrite !elem_of_union, elem_of_empty. tauto.
Qed.

Lemma size_list_to_set_le (l : list string) :
  (size (list_to_set l : gset string) ≤ length l)%nat.
Proof.
  induction l as [|t l IH].
  - by rewrite list_to_set_nil, size_empty.
  - rewrite list_to_set_cons, size_union_alt, size_singleton. cbn [length].
    pose proof (subseteq_size (list_to_set l ∖ {[t]}) (list_to_set l : gset string)) as Hle.
    assert (Hsub : list_to_set l ∖ {[t]} ⊆ (list_to_set l : gset string)).
    { intros u Hu. by apply elem_of_difference in Hu as [Hu _]. }
    specialize (Hle Hsub). lia.
Qed.

(** X10. A signature yields at most as many coefficient terms as it lists
    positions, and exactly as many when no channel lists a position
    twice: positions of different channels never share a term. The term
    set is empty only for a signature without any position. *)
Theorem make_coeff_terms_size (this : ImgTerms) (sig : ImgSig) :
  (size (make_coeff_terms this sig)
   ≤ length (sig1 sig) + length (sig2 sig) + length (sig3 sig))%nat ∧
  (NoDup (sig1 sig) → NoDup (sig2 sig) → NoDup (sig3 sig) →
   size (make_coeff_terms this sig)
   = (length (sig1 sig) + length (sig2 sig) + length (sig3 sig))%nat) ∧
  (make_coeff_terms this sig = ∅ ↔
   sig1 sig = [] ∧ sig2 sig = [] ∧ sig3 sig = []).
Proof.
  rewrite make_coeff_terms_list. split; [|split].
  - etransitivity; [apply size_list_to_set_le|].
    rewrite !length_app, !length_fmap. lia.
  - intros N1 N2 N3. rewrite size_list_to_set.
    + rewrite !length_app, !length_fmap. lia.
    + assert (Hinj : ∀ c, c ∈ channels → ∀ l, NoDup l →
                NoDup ((λ x, make_coeff_term this x c) <$> l)).
      { intros c Hc l Hl. apply NoDup_fmap_2; [|exact Hl].
        intros x y E. by apply make_coeff_term_inj in E as [-> _]. }
      assert (Hapart : ∀ c c' (l l' : list Z) t,
                c ∈ channels → c' ∈ channels → c ≠ c' →
                t ∈ (λ x, make_coeff_term this x c) <$> l →
                t ∉ (λ x, make_coeff_term this x c') <$> l').
      { intros c c' l l' t Hc Hc' Hne Hin Hin'.
        apply list_elem_of_fmap in Hin as (x & -> & _).
        apply list_elem_of_fmap in Hin' as (x' & E & _).
        apply make_coeff_term_inj in E as [_ E]; done. }
      apply NoDup_app. split; [|split].
      * apply Hinj; [apply elem_of_channels; tauto | done].
      * intros t Hin Hin'. apply elem_of_app in Hin' as [Hin' | Hin'].
        -- revert Hin'. apply (Hapart 0 1 (sig1 sig)); [..|done];
             first [apply elem_of_channels; tauto | lia].
        -- revert Hin'. apply (Hapart 0 2 (sig1 sig)); [..|done];
             first [apply elem_of_channels; tauto | lia].
      * apply NoDup_app. split; [|split].
        -- apply Hinj; [apply elem_of_channels; tauto | done].
        -- intros t Hin. apply (Hapart 1 2 (sig2 sig)); [..|done];
             first [apply elem_of_channels; tauto | lia].
        -- apply Hinj; [apply elem_of_channels; tauto | done].
  - destruct (sig1 sig) as [|x1 l1], (sig2 sig) as [|x2 l2],
      (sig3 sig) as [|x3 l3]; cbn [fmap list_fmap app list_to_set];
      (split; [intros E | intros (E1 & E2 & E3)]); try done;
      try (exfalso; apply (non_empty_union_L _ _) in E; [done|];
           left; apply non_empty_singleton_L).
Qed.

(** ** The averages query, in full *)

Lemma averages_channel_throws (this : ImgTerms) (d : Document)
    (query : Query) (c : Z) (slot : valueno) (e : Error) :
  vector_at (colour_vals this) c = Some slot →
  unserialise_double (get_value slot d) = inl e →
  averages_channel query c {| w_doc := d; w_this := this |}
  = Throw (rethrown e) {| w_doc := d; w_this := this |}.
Proof.
  intros Hslot Hval.
  unfold averages_channel, bind, get_doc, get_this. cbn [w_doc w_this].
  rewrite Hslot. cbn [deref ret]. rewrite Hval. by destruct e.
Qed.

Lemma make_averages_query_cases (this : ImgTerms) (d : Document)
    (s0 s1 s2 : valueno) (a0 a1 a2 : RangeAccelerator) :
  colour_vals this = [s0; s1; s2] →
  colour_average_accels this = [a0; a1; a2] →
  make_averages_query {| w_doc := d; w_this := this |}
  = match unserialise_double (get_value s0 d) with
    | inl e => Throw (rethrown e) {| w_doc := d; w_this := this |}
    | inr val0 =>
        match unserialise_double (get_value s1 d) with
        | inl e => Throw (rethrown e) {| w_doc := d; w_this := this |}
        | inr val1 =>
            match unserialise_double (get_value s2 d) with
            | inl e => Throw (rethrown e) {| w_doc := d; w_this := this |}
            | inr val2 =>
                Ret (averages_or a0 a1 a2 val0 val1 val2)
                    {| w_doc := d; w_this := this |}
            end
        end
    end.
Proof.
  intros Hvals Haccs.
  destruct (unserialise_double (get_value s0 d)) as [e0 | val0] eqn:E0.
  { unfold make_averages_query, channels. cbn [for_loop]. unfold bind.
    by rewrite (averages_channel_throws this d _ 0 s0 e0)
      by (rewrite ?Hvals; done). }
  destruct (unserialise_double (get_value s1 d)) as [e1 | val1] eqn:E1.
  { unfold make_averages_query, channels. cbn [for_loop]. unfold bind.
    rewrite (averages_channel_ok this d _ 0 s0 val0 a0 5.00%Q)
      by (rewrite ?Hvals, ?Haccs; done).
    by rewrite (averages_channel_throws this d _ 1 s1 e1)
      by (rewrite ?Hvals; done). }
  destruct (unserialise_double (get_value s2 d)) as [e2 | val2] eqn:E2.
  { unfold make_averages_query, channels. cbn [for_loop]. unfold bind.
    rewrite (averages_channel_ok this d _ 0 s0 val0 a0 5.00%Q)
      by (rewrite ?Hvals, ?Haccs; done).
    rewrite (averages_channel_ok this d _ 1 s1 val1 a1 19.21%Q)
      by (rewrite ?Hvals, ?Haccs; done).
    by rewrite (averages_channel_throws this d _ 2 s2 e2)
      by (rewrite ?Hvals; done). }
  by apply make_averages_query_run with s0 s1 s2.
Qed.

(** X11. For a constructed object [make_averages_query] is decided by
    the bytes in the three value slots alone. The slots are decoded in
    the order of the channels; the first one the decoder rejects ends the
    call with the decoder's exception, turned into an
    [InvalidArgumentError] with the same message when it is a
    [NetworkError] and passed on as it is otherwise, and the slots behind
    it are not looked at. The behaviour is never undefined. *)
Theorem make_averages_query_in_full (prefix_ : string) (v1 v2 v3 : valueno)
    (this : ImgTerms) (d : Document) :
  ImgTerms_new prefix_ v1 v2 v3 = Some this →
  ∃ a0 a1 a2,
    colour_average_accels this = [a0; a1; a2] ∧
    make_averages_query {| w_doc := d; w_this := this |}
    = match unserialise_double (get_value v1 d) with
      | inl e => Throw (rethrown e) {| w_doc := d; w_this := this |}
      | inr val0 =>
          match unserialise_double (get_value v2 d) with
          | inl e => Throw (rethrown e) {| w_doc := d; w_this := this |}
          | inr val1 =>
              match unserialise_double (get_value v3 d) with
              | inl e => Throw (rethrown e) {| w_doc := d; w_this := this |}
              | inr val2 =>
                  Ret (averages_or a0 a1 a2 val0 val1 val2)
                      {| w_doc := d; w_this := this |}
              end
          end
      end.
Proof.
  intros Hnew.
  destruct (ImgTerms_new_fields prefix_ v1 v2 v3)
    as (this' & Hnew' & _ & _ & Hvals & Haccs).
  rewrite Hnew in Hnew'. injection Hnew' as <-.
  do 3 eexists. split; [exact Haccs|].
  by apply make_averages_query_cases.
Qed.

(** ** How the operations compose *)

Lemma make_coeff_query_never_throws (w : World) (e : Error) (w' : World) :
  make_coeff_query w ≠ Throw e w'.
Proof.
  destruct w as [d this]. unfold make_coeff_query. rewrite coeff_loop_run.
  by destruct (weights_of _ _).
Qed.

(** X12. [querySimilar] returns a query exactly when both builders do,
    and the query is then the OR of the two; it throws exactly when the
    coefficient query is built and the averages query throws, with that
    very exception. In both cases the document and the object come back
    unchanged. *)
Theorem querySimilar_composes (w w' : World) :
  (∀ q, querySimilar w = Ret q w' ↔
        ∃ coeffs averages, q = Query_or coeffs averages ∧
          make_coeff_query w = Ret coeffs w ∧
          make_averages_query w = Ret averages w ∧ w' = w) ∧
  (∀ e, querySimilar w = Throw e w' ↔
        ∃ coeffs, make_coeff_query w = Ret coeffs w ∧
          make_averages_query w = Throw e w ∧ w' = w).
Proof.
  pose proof (read_only_make_coeff_query w) as Hc.
  pose proof (read_only_make_averages_query w) as Ha.
  pose proof (make_coeff_query_never_throws w) as Hnt.
  unfold querySimilar, bind.
  destruct (make_coeff_query w) as [qc wc | ec wc | ].
  - subst wc. destruct (make_averages_query w) as [qa wa | ea wa | ].
    + subst wa. split.
      * intros q. split.
        -- intros [= <- <-]. by exists qc, qa.
        -- intros (qc' & qa' & -> & [= <-] & [= <-] & ->). reflexivity.
      * intros e. split; [discriminate|]. intros (? & _ & ? & _). discriminate.
    + subst wa. split.
      * intros q. split; [discriminate|].
        intros (? & ? & _ & _ & ? & _). discriminate.
      * intros e. split.
        -- intros [= <- <-]. by exists qc.
        -- intros (qc' & _ & [= <-] & ->). reflexivity.
    + split.
      * intros q. split; [discriminate|].
        intros (? & ? & _ & _ & ? & _). discriminate.
      * intros e. split; [discriminate|]. intros (? & _ & ? & _). discriminate.
  - by destruct (Hnt ec wc).
  - split.
    + intros q. split; [discriminate|].
      intros (? & ? & _ & ? & _). discriminate.
    + intros e. split; [discriminate|]. intros (? & ? & _). discriminate.
Qed.

Lemma insert3_absorb (m : gmap valueno string) (s0 s1 s2 : valueno)
    (x0 x1 x2 y0 y1 y2 : string) :
  <[s2 := y2]> (<[s1 := y1]> (<[s0 := y0]>
     (<[s2 := x2]> (<[s1 := x1]> (<[s0 := x0]> m)))))
  = <[s2 := y2]> (<[s1 := y1]> (<[s0 := y0]> m)).
Proof.
  apply map_eq. intros k. rewrite !lookup_insert.
  repeat case_decide; reflexivity.
Qed.

(** X13. [AddTerms] only ever adds terms. Indexing a second signature
    into a document that already holds a first one leaves the terms of
    the first in place beside those of the second, while the three
    averages become those of the second alone: the document then
    carries the union of both term sets with the averages of the
    last. *)
Theorem AddTerms_accumulates (prefix_ : string) (v1 v2 v3 : valueno)
    (this : ImgTerms) (d : Document) (sigA sigB : ImgSig) :
  ImgTerms_new prefix_ v1 v2 v3 = Some this →
  ∃ dA dAB dB,
    AddTerms sigA {| w_doc := d; w_this := this |}
    = Ret tt {| w_doc := dA; w_this := this |} ∧
    AddTerms sigB {| w_doc := dA; w_this := this |}
    = Ret tt {| w_doc := dAB; w_this := this |} ∧
    AddTerms sigB {| w_doc := d; w_this := this |}
    = Ret tt {| w_doc := dB; w_this := this |} ∧
    doc_terms dAB
    = make_coeff_terms this sigB ∪ make_coeff_terms this sigA ∪ doc_terms d ∧
    doc_values dAB = doc_values dB.
Proof.
  intros Hnew.
  destruct (ImgTerms_new_fields prefix_ v1 v2 v3)
    as (this' & Hnew' & _ & _ & _ & Haccs).
  rewrite Hnew in Hnew'. injection Hnew' as <-.
  do 3 eexists.
  split; [apply (AddTerms_run this d sigA _ _ _ [] Haccs)|].
  split; [apply (AddTerms_run this _ sigB _ _ _ [] Haccs)|].
  split; [apply (AddTerms_run this d sigB _ _ _ [] Haccs)|].
  unfold add_val, add_value. cbn [doc_terms doc_values ra_valnum].
  split; [by rewrite (assoc_L (∪)) | apply insert3_absorb].
Qed.

Lemma elem_of_make_coeff_terms_channel (this : ImgTerms) (sig : ImgSig)
    (t : string) :
  t ∈ make_coeff_terms this sig ↔
  ∃ x c, c ∈ channels ∧ x ∈ sig_channel sig c ∧ t = make_coeff_term this x c.
Proof.
  rewrite elem_of_make_coeff_terms. split.
  - intros [(x & Hx & ->) | [(x & Hx & ->) | (x & Hx & ->)]];
      [exists x, 0 | exists x, 1 | exists x, 2];
      (split; [apply elem_of_channels; tauto | by split]).
  - intros (x & c & Hc & Hx & ->).
    apply elem_of_channels in Hc as [-> | [-> | ->]]; cbn in Hx;
      [left | right; left | right; right]; by exists x.
Qed.

Lemma sig_in_range_channel (sig : ImgSig) (x c : Z) :
  sig_in_range num_pixels_squared sig → c ∈ channels →
  x ∈ sig_channel sig c → - num_pixels_squared ≤ x < num_pixels_squared.
Proof.
  intros Hrange Hc Hx. apply Hrange. rewrite !elem_of_app.
  apply elem_of_channels in Hc as [-> | [-> | ->]]; cbn in Hx; tauto.
Qed.

Lemma startswith_own_prefix (this : ImgTerms) (x c : Z) :
  startswith (make_coeff_term this x c) (colourprefix this c) = true.
Proof.
  unfold make_coeff_term. rewrite startswith_prefix. apply prefix_append_self.
Qed.

(** The coefficient query of a document that holds the coefficient terms
    of [sig] and no other term with a channel prefix. *)
Lemma indexed_coeff_query (this : ImgTerms) (d' : Document) (sig : ImgSig) :
  weightmap this = make_weightmap this →
  sig_in_range num_pixels_squared sig →
  (∀ t, t ∈ coeff_matches this d' ↔ t ∈ make_coeff_terms this sig) →
  ∃ tws,
    make_coeff_query {| w_doc := d'; w_this := this |}
    = Ret (weighted_or Query_empty tws) {| w_doc := d'; w_this := this |} ∧
    NoDup tws.*1 ∧
    ∀ t w, (t, w) ∈ tws ↔
           ∃ x c, c ∈ channels ∧ x ∈ sig_channel sig c ∧
                  t = make_coeff_term this x c ∧ w = find_weight x c.
Proof.
  intros Hwm Hrange Hmatches.
  assert (Hentry : ∀ x c, c ∈ channels → x ∈ sig_channel sig c →
            weightmap this !! make_coeff_term this x c = Some (find_weight x c)).
  { intros x c Hc Hx. rewrite Hwm. apply make_weightmap_lookup; [|exact Hc].
    by apply sig_in_range_channel with sig c. }
  destruct (weights_of (weightmap this) (coeff_matches this d')) as [tws|] eqn:E.
  - exists tws. unfold make_coeff_query. rewrite coeff_loop_run.
    fold (coeff_matches this d'). rewrite E.
    apply elem_of_weights_of in E as [Hfst Hin].
    split; [reflexivity|]. split; [rewrite Hfst; apply NoDup_coeff_matches|].
    intros t w. rewrite Hin, Hmatches, elem_of_make_coeff_terms_channel. split.
    + intros [(x & c & Hc & Hx & ->) Hw]. exists x, c.
      rewrite (Hentry x c Hc Hx) in Hw. injection Hw as <-. done.
    + intros (x & c & Hc & Hx & -> & ->). split; [by exists x, c|].
      by apply Hentry.
  - exfalso. apply weights_of_None in E as (t & Hin & Hnone).
    apply Hmatches, elem_of_make_coeff_terms_channel in Hin
      as (x & c & Hc & Hx & ->).
    rewrite (Hentry x c Hc Hx) in Hnone. discriminate Hnone.
Qed.

Lemma coeff_matches_after_indexing (this : ImgTerms) (d : Document)
    (sig : ImgSig) (vals : gmap valueno string) (t : string) :
  (∀ t c, t ∈ doc_terms d → c ∈ channels →
          startswith t (colourprefix this c) = false) →
  t ∈ coeff_matches this
        {| doc_terms := make_coeff_terms this sig ∪ doc_terms d;
           doc_values := vals |}
  ↔ t ∈ make_coeff_terms this sig.
Proof.
  intros Hclean. rewrite elem_of_coeff_matches. cbn [doc_terms].
  rewrite elem_of_union. split.
  - intros [[Hin | Hin] (c & Hc & Hstart)]; [exact Hin|].
    rewrite (Hclean t c Hin Hc) in Hstart. discriminate Hstart.
  - intros Hin. split; [by left|].
    apply elem_of_make_coeff_terms_channel in Hin as (x & c & Hc & _ & ->).
    exists c. split; [exact Hc | apply startswith_own_prefix].
Qed.

(** X14. Indexing and then querying meet: after [AddTerms] has indexed
    a signature whose positions are all in range into a document that
    held no term with a channel prefix, [make_coeff_query] returns a
    query with exactly one scaled single-term query per position of the
    signature, the term being the coefficient term of the position and
    its channel and the scale being what [find_weight] gives for
    them. *)
Theorem indexed_signature_is_queried (prefix_ : string) (v1 v2 v3 : valueno)
    (this : ImgTerms) (d : Document) (sig : ImgSig) :
  ImgTerms_new prefix_ v1 v2 v3 = Some this →
  sig_in_range num_pixels_squared sig →
  (∀ t c, t ∈ doc_terms d → c ∈ channels →
          startswith t (colourprefix this c) = false) →
  ∃ d' tws,
    AddTerms sig {| w_doc := d; w_this := this |}
    = Ret tt {| w_doc := d'; w_this := this |} ∧
    make_coeff_query {| w_doc := d'; w_this := this |}
    = Ret (weighted_or Query_empty tws) {| w_doc := d'; w_this := this |} ∧
    NoDup tws.*1 ∧
    ∀ t w, (t, w) ∈ tws ↔
           ∃ x c, c ∈ channels ∧ x ∈ sig_channel sig c ∧
                  t = make_coeff_term this x c ∧ w = find_weight x c.
Proof.
  intros Hnew Hrange Hclean.
  destruct (ImgTerms_new_fields prefix_ v1 v2 v3)
    as (this' & Hnew' & _ & Hwm & _ & Haccs).
  rewrite Hnew in Hnew'. injection Hnew' as <-.
  pose proof (AddTerms_run this d sig _ _ _ [] Haccs) as Hrun.
  match type of Hrun with
  | _ = Ret tt {| w_doc := ?x; w_this := _ |} => set (d' := x) in *
  end.
  destruct (indexed_coeff_query this d' sig Hwm Hrange)
    as (tws & Hq & Hnd & Hin).
  - intros t.
    exact (coeff_matches_after_indexing this d sig (doc_values d') t Hclean).
  - exists d', tws. split; [exact Hrun|].
    split; [exact Hq|]. split; [exact Hnd | exact Hin].
Qed.

(** X15. A freshly indexed document can always be queried: when the
    three value slots differ, the codec reads back the three averages it
    wrote, the positions are in range and the document held no term with
    a channel prefix, [querySimilar] after [AddTerms] returns the OR of
    the signature's coefficient query with the averages query built
    from the signature's own three averages. *)
Theorem index_then_querySimilar (prefix_ : string) (v1 v2 v3 : valueno)
    (this : ImgTerms) (d : Document) (sig : ImgSig) :
  ImgTerms_new prefix_ v1 v2 v3 = Some this →
  v1 ≠ v2 → v1 ≠ v3 → v2 ≠ v3 →
  unserialise_double (serialise_double (avgl0 sig)) = inr (avgl0 sig) →
  unserialise_double (serialise_double (avgl1 sig)) = inr (avgl1 sig) →
  unserialise_double (serialise_double (avgl2 sig)) = inr (avgl2 sig) →
  sig_in_range num_pixels_squared sig →
  (∀ t c, t ∈ doc_terms d → c ∈ channels →
          startswith t (colourprefix this c) = false) →
  ∃ d' tws a0 a1 a2,
    AddTerms sig {| w_doc := d; w_this := this |}
    = Ret tt {| w_doc := d'; w_this := this |} ∧
    colour_average_accels this = [a0; a1; a2] ∧
    querySimilar {| w_doc := d'; w_this := this |}
    = Ret (Query_or (weighted_or Query_empty tws)
                    (averages_or a0 a1 a2 (avgl0 sig) (avgl1 sig) (avgl2 sig)))
          {| w_doc := d'; w_this := this |} ∧
    ∀ t w, (t, w) ∈ tws ↔
           ∃ x c, c ∈ channels ∧ x ∈ sig_channel sig c ∧
                  t = make_coeff_term this x c ∧ w = find_weight x c.
Proof.
  intros Hnew H12 H13 H23 R0 R1 R2 Hrange Hclean.
  destruct (ImgTerms_new_fields prefix_ v1 v2 v3)
    as (this' & Hnew' & _ & Hwm & Hvals & Haccs).
  rewrite Hnew in Hnew'. injection Hnew' as <-.
  pose proof (AddTerms_run this d sig _ _ _ [] Haccs) as Hrun.
  match type of Hrun with
  | _ = Ret tt {| w_doc := ?x; w_this := _ |} => set (d' := x) in *
  end.
  destruct (indexed_coeff_query this d' sig Hwm Hrange)
    as (tws & Hq & _ & Hin).
  { intros t.
    exact (coeff_matches_after_indexing this d sig (doc_values d') t Hclean). }
  exists d', tws. do 3 eexists.
  split; [exact Hrun|].
  split; [exact Haccs|]. split; [|exact Hin].
  unfold querySimilar, bind. rewrite Hq.
  rewrite (make_averages_query_cases this _ v1 v2 v3 _ _ _ Hvals Haccs).
  assert (G1 : get_value v1 d' = serialise_double (avgl0 sig)).
  { subst d'. unfold get_value, add_val, add_value. cbn [doc_values ra_valnum].
    by rewrite (lookup_insert_ne _ v3 v1), (lookup_insert_ne _ v2 v1),
      lookup_insert_eq by done. }
  assert (G2 : get_value v2 d' = serialise_double (avgl1 sig)).
  { subst d'. unfold get_value, add_val, add_value. cbn [doc_values ra_valnum].
    by rewrite (lookup_insert_ne _ v3 v2), lookup_insert_eq by done. }
  assert (G3 : get_value v3 d' = serialise_double (avgl2 sig)).
  { subst d'. unfold get_value, add_val, add_value. cbn [doc_values ra_valnum].
    by rewrite lookup_insert_eq. }
  by rewrite G1, R0, G2, R1, G3, R2.
Qed.

End FurtherProperties.

(** * The further properties on the sample configuration *)

Lemma make_coeff_query_ignores_other_terms_witness :
  coeff_matches {| prefix := "IMG"; weightmap := ∅; colour_vals := [];
                   colour_average_accels := [] |}
    (add_term "IMGA0_12" Document_new)
  = coeff_matches {| prefix := "IMG"; weightmap := ∅; colour_vals := [];
                     colour_average_accels := [] |} Document_new.
Proof.
  refine (proj1 (make_coeff_query_ignores_other_terms _ _ _ _)).
  intros c Hc. apply elem_of_channels in Hc as [-> | [-> | ->]]; reflexivity.
Defined.

Lemma make_coeff_query_defined_iff_witness :
  ∃ this, @ImgTerms_new sample_collaborators "IMG" 1 2 3 = Some this ∧
    (make_coeff_query {| w_doc := add_term "IMG0" Document_new; w_this := this |}
     = Undefined ↔
     ∃ t, t ∈ doc_terms (add_term "IMG0" Document_new) ∧
       (∃ c, c ∈ channels ∧ startswith t (colourprefix this c) = true) ∧
       ∀ x c, - 16384 ≤ x < 16384 → c ∈ channels →
              t ≠ make_coeff_term this x c).
Proof.
  destruct (@ImgTerms_new_fields sample_collaborators "IMG" 1 2 3)
    as (this & Hnew & _).
  exists this. split; [exact Hnew|].
  exact (proj2 (@make_coeff_query_defined_iff sample_collaborators "IMG" 1 2 3
                  this (add_term "IMG0" Document_new) Hnew)).
Defined.

Lemma accelerator_terms_apart_witness :
  ∃ this acc, @ImgTerms_new sample_collaborators "IMG" 1 2 3 = Some this ∧
    colour_average_accels this !! 0%nat = Some acc ∧
    startswith (ra_prefix acc +:+ "_17") (colourprefix this 0) = false.
Proof.
  destruct (@ImgTerms_new_fields sample_collaborators "IMG" 1 2 3)
    as (this & Hnew & _ & _ & _ & Haccs).
  exists this. eexists. split; [exact Hnew|].
  split; [rewrite Haccs; reflexivity|].
  refine (proj1 (@accelerator_terms_apart sample_collaborators "IMG" 1 2 3
                   this _ 0 Hnew _ _) "_17").
  - rewrite Haccs. by left.
  - apply elem_of_channels. tauto.
Defined.

Lemma make_averages_query_in_full_witness :
  ∃ this a0 a1 a2, @ImgTerms_new sample_collaborators "IMG" 1 2 3 = Some this ∧
    colour_average_accels this = [a0; a1; a2] ∧
    @make_averages_query sample_collaborators
      {| w_doc := doc_without_I; w_this := this |}
    = Throw (InvalidArgumentError "Bad encoded double: insufficient data")
            {| w_doc := doc_without_I; w_this := this |}.
Proof.
  destruct (@ImgTerms_new_fields sample_collaborators "IMG" 1 2 3)
    as (this & Hnew & _).
  destruct (@make_averages_query_in_full sample_collaborators "IMG" 1 2 3
              this doc_without_I Hnew) as (a0 & a1 & a2 & Haccs & Hrun).
  exists this, a0, a1, a2. split; [exact Hnew|]. split; [exact Haccs|].
  exact Hrun.
Defined.

Lemma AddTerms_accumulates_witness :
  ∃ this dA dAB, @ImgTerms_new sample_collaborators "IMG" 1 2 3 = Some this ∧
    @AddTerms sample_collaborators scenario_sig
      {| w_doc := Document_new; w_this := this |}
    = Ret tt {| w_doc := dA; w_this := this |} ∧
    @AddTerms sample_collaborators
      {| sig1 := [7]; sig2 := []; sig3 := [];
         avgl0 := 0.25%Q; avgl1 := 0.0%Q; avgl2 := 0.0%Q |}
      {| w_doc := dA; w_this := this |}
    = Ret tt {| w_doc := dAB; w_this := this |} ∧
    doc_terms dAB
    = make_coeff_terms this
        {| sig1 := [7]; sig2 := []; sig3 := [];
           avgl0 := 0.25%Q; avgl1 := 0.0%Q; avgl2 := 0.0%Q |}
      ∪ make_coeff_terms this scenario_sig ∪ doc_terms Document_new.
Proof.
  destruct (@ImgTerms_new_fields sample_collaborators "IMG" 1 2 3)
    as (this & Hnew & _).
  destruct (@AddTerms_accumulates sample_collaborators "IMG" 1 2 3 this
              Document_new scenario_sig
              {| sig1 := [7]; sig2 := []; sig3 := [];
                 avgl0 := 0.25%Q; avgl1 := 0.0%Q; avgl2 := 0.0%Q |} Hnew)
    as (dA & dAB & dB & HA & HAB & _ & Hterms & _).
  exists this, dA, dAB. split; [exact Hnew|]. split; [exact HA|].
  split; [exact HAB | exact Hterms].
Defined.

Lemma indexed_signature_is_queried_witness :
  ∃ this d' tws, @ImgTerms_new sample_collaborators "IMG" 1 2 3 = Some this ∧
    @AddTerms sample_collaborators scenario_sig
      {| w_doc := Document_new; w_this := this |}
    = Ret tt {| w_doc := d'; w_this := this |} ∧
    make_coeff_query {| w_doc := d'; w_this := this |}
    = Ret (weighted_or Query_empty tws) {| w_doc := d'; w_this := this |}.
Proof.
  destruct (@ImgTerms_new_fields sample_collaborators "IMG" 1 2 3)
    as (this & Hnew & _).
  destruct (@indexed_signature_is_queried sample_collaborators "IMG" 1 2 3
              this Document_new scenario_sig Hnew)
    as (d' & tws & Hrun & Hq & _).
  - intros x. cbn [scenario_sig sig1 sig2 sig3 app num_pixels_squared
                   sample_collaborators].
    rewrite !elem_of_cons, elem_of_nil. lia.
  - intros t c Ht. cbn in Ht. by apply elem_of_empty in Ht.
  - exists this, d', tws. split; [exact Hnew|]. split; [exact Hrun | exact Hq].
Defined.

Lemma index_then_querySimilar_witness :
  ∃ this d' q, @ImgTerms_new sample_collaborators "IMG" 1 2 3 = Some this ∧
    @AddTerms sample_collaborators scenario_sig
      {| w_doc := Document_new; w_this := this |}
    = Ret tt {| w_doc := d'; w_this := this |} ∧
    @querySimilar sample_collaborators {| w_doc := d'; w_this := this |}
    = Ret q {| w_doc := d'; w_this := this |}.
Proof.
  destruct (@ImgTerms_new_fields sample_collaborators "IMG" 1 2 3)
    as (this & Hnew & _).
  destruct (@index_then_querySimilar sample_collaborators "IMG" 1 2 3
              this Document_new scenario_sig Hnew)
    as (d' & tws & a0 & a1 & a2 & Hrun & _ & Hq & _);
    [discriminate | discriminate | discriminate
    | reflexivity | reflexivity | reflexivity | | | ].
  - intros x. cbn [scenario_sig sig1 sig2 sig3 app num_pixels_squared
                   sample_collaborators].
    rewrite !elem_of_cons, elem_of_nil. lia.
  - intros t c Ht. cbn in Ht. by apply elem_of_empty in Ht.
  - exists this, d'. eexists. split; [exact Hnew|].
    split; [exact Hrun | exact Hq].
Defined.

(** * Value slots that coincide *)

Section SharedSlots.
Context `{Collaborators}.

(** X16. The constructor takes any three slot numbers. When the first
    two are the same slot, [AddTerms] writes the channel-0 average and
    then overwrites it with the channel-1 average; the averages query of
    the indexed document then measures channel 0 against the channel-1
    average, and the average of channel 0 is lost. *)
Theorem shared_slot_keeps_last_average (prefix_ : string) (v v3 : valueno)
    (this : ImgTerms) (d : Document) (sig : ImgSig) :
  ImgTerms_new prefix_ v v v3 = Some this →
  v ≠ v3 →
  unserialise_double (serialise_double (avgl1 sig)) = inr (avgl1 sig) →
  unserialise_double (serialise_double (avgl2 sig)) = inr (avgl2 sig) →
  ∃ d' a0 a1 a2,
    AddTerms sig {| w_doc := d; w_this := this |}
    = Ret tt {| w_doc := d'; w_this := this |} ∧
    colour_average_accels this = [a0; a1; a2] ∧
    get_value v d' = serialise_double (avgl1 sig) ∧
    make_averages_query {| w_doc := d'; w_this := this |}
    = Ret (averages_or a0 a1 a2 (avgl1 sig) (avgl1 sig) (avgl2 sig))
          {| w_doc := d'; w_this := this |}.
Proof.
  intros Hnew Hne R1 R2.
  destruct (ImgTerms_new_fields prefix_ v v v3)
    as (this' & Hnew' & _ & _ & Hvals & Haccs).
  rewrite Hnew in Hnew'. injection Hnew' as <-.
  pose proof (AddTerms_run this d sig _ _ _ [] Haccs) as Hrun.
  match type of Hrun with
  | _ = Ret tt {| w_doc := ?x; w_this := _ |} => set (d' := x) in *
  end.
  assert (G1 : get_value v d' = serialise_double (avgl1 sig)).
  { subst d'. unfold get_value, add_val, add_value. cbn [doc_values ra_valnum].
    by rewrite (lookup_insert_ne _ v3 v), lookup_insert_eq by done. }
  assert (G3 : get_value v3 d' = serialise_double (avgl2 sig)).
  { subst d'. unfold get_value, add_val, add_value. cbn [doc_values ra_valnum].
    by rewrite lookup_insert_eq. }
  exists d'. do 3 eexists. split; [exact Hrun|]. split; [exact Haccs|].
  split; [exact G1|].
  rewrite (make_averages_query_cases this d' v v v3 _ _ _ Hvals Haccs).
  by rewrite G1, R1, G3, R2.
Qed.

End SharedSlots.

Lemma shared_slot_keeps_last_average_witness :
  ∃ this d', @ImgTerms_new sample_collaborators "IMG" 1 1 3 = Some this ∧
    @AddTerms sample_collaborators scenario_sig
      {| w_doc := Document_new; w_this := this |}
    = Ret tt {| w_doc := d'; w_this := this |} ∧
    get_value 1 d' = "0/10".
Proof.
  destruct (@ImgTerms_new_fields sample_collaborators "IMG" 1 1 3)
    as (this & Hnew & _).
  destruct (@shared_slot_keeps_last_average sample_collaborators "IMG" 1 3
              this Document_new scenario_sig Hnew)
    as (d' & a0 & a1 & a2 & Hrun & _ & Hval & _);
    [discriminate | reflexivity | reflexivity |].
  exists this, d'. split; [exact Hnew|]. split; [exact Hrun | exact Hval].
Defined.
